(** * composer/utils/remote_uploader.py: a shallow embedding

    The module has one worker-side function, [_upload_file_to_object_store],
    which runs inside a process of a [ProcessPoolExecutor], and the class
    [RemoteUploader], which runs in the training process: it stages files,
    submits upload calls to the pool and tracks the returned futures in
    [self.futures].

    Python statements are written in a state monad with three outcomes
    (return, raise, block forever); the state is the process's view of the
    world (clock, local files, remote side, the pool's futures) and, for the
    methods, the [RemoteUploader] object itself. *)

From Stdlib Require Import ZArith String DecimalString Sorted.
From stdpp Require Import base option list gmap strings.

Open Scope string_scope.
Open Scope Z_scope.

(** ** Python values used by the module *)

Module Py.

(** The exception classes that the module raises, catches or receives from
    the libraries it calls. *)
Inductive exn_class :=
| ValueError
| RuntimeError
| AssertionError
| AttributeError
| FileExistsError
| FileNotFoundError
| ObjectStoreTransientError
| OtherError (name : string).

#[global] Instance exn_class_eq_dec : EqDecision exn_class.
Proof. solve_decision. Defined.

Record exn := Exn { exn_cls : exn_class; exn_msg : string }.

#[global] Instance exn_eq_dec : EqDecision exn.
Proof. solve_decision. Defined.

(** [isinstance(e, cls)], the test of an [except cls] clause.  None of the
    classes above is caught through a base class in this module. *)
Definition isinstance (e : exn) (cls : exn_class) : bool :=
  bool_decide (exn_cls e = cls).

(** [str(n)] for an [int], as an f-string formats it. *)
Definition str_of_int (n : Z) : string := NilZero.string_of_int (Z.to_int n).

(** [s.startswith(p)] *)
Definition startswith (s p : string) : bool := String.prefix p s.
#[global] Arguments startswith : simpl never.

(** [s.endswith(p)] *)
Fixpoint endswith (s p : string) : bool :=
  bool_decide (s = p) ||
  match s with
  | EmptyString => false
  | String _ s' => endswith s' p
  end.

(** [os.path.join(a, b)] on POSIX, for two components. *)
Definition os_path_join (a b : string) : string :=
  if startswith b "/" then b
  else if bool_decide (a = "") || endswith a "/" then a ++ b
  else a ++ "/" ++ b.

(** [l.remove(x)]: drops the first element equal to [x]; [None] stands for
    the [ValueError] of a missing element. *)
Fixpoint list_remove {A} `{EqDecision A} (x : A) (l : list A) : option (list A) :=
  match l with
  | [] => None
  | y :: l' => if decide (y = x) then Some l' else (y ::.) <$> list_remove x l'
  end.

End Py.
Import Py.

(** ** The monad of Python statements *)

Inductive outcome (A : Type) :=
| Returns (a : A)
| Raises (e : exn)
| BlocksForever.
Arguments Returns {A} a.
Arguments Raises {A} e.
Arguments BlocksForever {A}.

Definition M (St A : Type) : Type := St → outcome A * St.

#[global] Instance M_ret {St} : MRet (M St) := λ A a s, (Returns a, s).

#[global] Instance M_bind {St} : MBind (M St) := λ A B k c s,
  match c s with
  | (Returns a, s') => k a s'
  | (Raises e, s') => (Raises e, s')
  | (BlocksForever, s') => (BlocksForever, s')
  end.

Definition raise {St A} (e : exn) : M St A := λ s, (Raises e, s).
Definition gets {St A} (f : St → A) : M St A := λ s, (Returns (f s), s).
Definition modify {St} (f : St → St) : M St unit := λ s, (Returns tt, f s).

(** [try: c  except cls: h]: the handler sees the state the body left. *)
Definition try_except {St A} (c : M St A) (cls : exn_class) (h : exn → M St A) : M St A :=
  λ s,
  match c s with
  | (Raises e, s') => if isinstance e cls then h e s' else (Raises e, s')
  | r => r
  end.

(** Running a statement of a smaller state inside a larger one. *)
Definition zoom {St Sub A} (get : St → Sub) (set : Sub → St → St) (c : M Sub A) : M St A :=
  λ s, let '(r, sub) := c (get s) in (r, set sub s).

(** ** Object stores, futures and the observable events *)

(** The three variants of [ObjectStore] clients (provider store chosen by URI
    scheme, MLflow artifact store, Unity Catalog volume store); a client is
    identified by the argument it was constructed from. *)
Inductive ObjectStore :=
| ProviderObjectStore (uri : string)
| MLFlowObjectStore (path : string)
| UCObjectStore (path : string).

#[global] Instance ObjectStore_eq_dec : EqDecision ObjectStore.
Proof. solve_decision. Defined.

(** A [concurrent.futures.Future] is compared by identity: it is modelled by
    the number the pool gave it. *)
Definition Future := nat.

(** The keyword arguments with which [_upload_file_to_object_store] is
    submitted to the pool. *)
Record UploadCall := {
  call_remote_folder : string;
  call_is_dbfs : bool;
  call_dbfs_path : string;
  call_remote_file_name : string;
  call_local_file_path : string;
  call_overwrite : bool;
  call_num_attempts : Z;
}.

#[global] Instance UploadCall_eq_dec : EqDecision UploadCall.
Proof. solve_decision. Defined.

(** What a process does that another party can see, in the order done. *)
Inductive Event :=
| EvDone (f : Future)                        (* future.done() *)
| EvException (f : Future)                   (* future.exception() *)
| EvSleep (seconds : Z)                      (* time.sleep of the stagger *)
| EvBackoff (i : Z)                          (* the retry policy's sleep *)
| EvGetObjectSize (name : string)            (* object_store.get_object_size *)
| EvUploadObject (name filename : string)    (* object_store.upload_object *)
| EvRemove (path : string)                   (* os.remove *)
| EvCopy (src dst : string)                  (* shutil.copy2 *)
| EvSubmit (f : Future) (call : UploadCall)    (* executor.submit *)
| EvShutdown                                 (* executor.shutdown(wait=True) *)
| EvBroadcast (objects : list string)        (* broadcast_object_list *)
| EvValidate (o : option ObjectStore) (name : string).

#[global] Instance Event_eq_dec : EqDecision Event.
Proof. solve_decision. Defined.

(** ** Collaborators that are not part of the module

    The module imports them; their code is elsewhere.  They are taken as
    parameters: every theorem below holds for all of them.  [Remote] is
    whatever state the remote side has (objects, credentials, scripted
    failures). *)
Class Collaborators := {
  Remote : Type;
  (* composer.utils.object_store.mlflow_object_store *)
  MLFLOW_DBFS_PATH_PREFIX : string;
  MLFlowObjectStore_init : string → M Remote unit;
  get_dbfs_path : ObjectStore → string → M Remote string;
  (* composer.utils.object_store.uc_object_store *)
  UCObjectStore_validate_path : string → M Remote unit;
  UCObjectStore_init : string → M Remote unit;
  (* composer.utils.object_store.object_store: the two methods used *)
  get_object_size : ObjectStore → string → M Remote Z;
  upload_object : ObjectStore → string → string → gmap string (list Byte.byte) → M Remote unit;
  (* composer.utils.file_helpers *)
  parse_uri : string → string * string * string;
  maybe_create_object_store_from_uri : string → M Remote (option ObjectStore);
  validate_credentials : option ObjectStore → string → M Remote unit;
  (* composer.utils.retrying: how long attempt [i] backs off, and whether the
     wrapper hands the attempt number to the wrapped function *)
  backoff_seconds : Z → Z;
  retry_passes_index : bool;
  (* the builtin int() on a str *)
  int_of_str : string → option Z;
}.

Section Program.
Context `{Collaborators}.

(** ** The world a process acts on *)

Record World := {
  now : Z;                                   (* wall clock, in seconds *)
  files : gmap string (list Byte.byte);      (* the local file system *)
  remote : Remote;
  environ : gmap string string;              (* os.environ *)
  local_rank : Z;                            (* dist.get_local_rank() *)
  global_rank : Z;                           (* dist.get_global_rank() *)
  fates : gmap Future (Z * option exn);      (* when each submitted call resolves, and
                                                with which exception; absent: never *)
  futures_made : nat;                        (* how many futures exist *)
  uuids : nat → string;                      (* the values uuid.uuid4() will return *)
  uuids_drawn : nat;
  tempdir_name : string;                     (* the name TemporaryDirectory() will pick *)
  leader_objects : list string;              (* what rank 0 sends in the broadcast *)
  trace : list Event;
}.

Definition set_now (t : Z) (w : World) : World :=
  {| now := t; files := files w; remote := remote w; environ := environ w;
     local_rank := local_rank w; global_rank := global_rank w; fates := fates w;
     futures_made := futures_made w;
     uuids := uuids w; uuids_drawn := uuids_drawn w; tempdir_name := tempdir_name w;
     leader_objects := leader_objects w; trace := trace w |}.

Definition set_files (fs : gmap string (list Byte.byte)) (w : World) : World :=
  {| now := now w; files := fs; remote := remote w; environ := environ w;
     local_rank := local_rank w; global_rank := global_rank w; fates := fates w;
     futures_made := futures_made w;
     uuids := uuids w; uuids_drawn := uuids_drawn w; tempdir_name := tempdir_name w;
     leader_objects := leader_objects w; trace := trace w |}.

Definition set_remote (r : Remote) (w : World) : World :=
  {| now := now w; files := files w; remote := r; environ := environ w;
     local_rank := local_rank w; global_rank := global_rank w; fates := fates w;
     futures_made := futures_made w;
     uuids := uuids w; uuids_drawn := uuids_drawn w; tempdir_name := tempdir_name w;
     leader_objects := leader_objects w; trace := trace w |}.

Definition set_uuids_drawn (n : nat) (w : World) : World :=
  {| now := now w; files := files w; remote := remote w; environ := environ w;
     local_rank := local_rank w; global_rank := global_rank w; fates := fates w;
     futures_made := futures_made w;
     uuids := uuids w; uuids_drawn := n; tempdir_name := tempdir_name w;
     leader_objects := leader_objects w; trace := trace w |}.

Definition set_futures_made (n : nat) (w : World) : World :=
  {| now := now w; files := files w; remote := remote w; environ := environ w;
     local_rank := local_rank w; global_rank := global_rank w; fates := fates w;
     futures_made := n;
     uuids := uuids w; uuids_drawn := uuids_drawn w; tempdir_name := tempdir_name w;
     leader_objects := leader_objects w; trace := trace w |}.

Definition set_trace (tr : list Event) (w : World) : World :=
  {| now := now w; files := files w; remote := remote w; environ := environ w;
     local_rank := local_rank w; global_rank := global_rank w; fates := fates w;
     futures_made := futures_made w;
     uuids := uuids w; uuids_drawn := uuids_drawn w; tempdir_name := tempdir_name w;
     leader_objects := leader_objects w; trace := tr |}.

(** States that contain a world: the worker's state is the world, a method's
    state is the world and [self]. *)
Class HasWorld (St : Type) := {
  the_world : St → World;
  with_world : World → St → St;
}.

#[global] Instance World_HasWorld : HasWorld World :=
  {| the_world := id; with_world := λ w _, w |}.

Definition inW {St} `{HasWorld St} {A} (c : M World A) : M St A :=
  zoom the_world with_world c.

Definition log (ev : Event) : M World unit :=
  modify (λ w, set_trace (trace w ++ [ev]) w).

(** A call into a collaborator acts on the remote side only. *)
Definition inRemote {A} (c : M Remote A) : M World A :=
  zoom remote set_remote c.

(** *** Library calls *)

(** The largest number of whole seconds that [time.sleep] accepts: it
    converts its argument to a signed 64-bit count of nanoseconds, and
    [(2^63 - 1) / 10^9 = 9223372036]. *)
Definition SLEEP_SECONDS_MAX : Z := 9223372036.

(** [time.sleep(seconds)] for an [int]: the conversion to nanoseconds comes
    first and is an [OverflowError] outside the range, then a negative length
    is a [ValueError]; neither error sleeps. *)
Definition time_sleep (seconds : Z) : M World unit :=
  if bool_decide (seconds < - SLEEP_SECONDS_MAX ∨ SLEEP_SECONDS_MAX < seconds) then
    raise (Exn (OtherError "OverflowError")
             "timestamp too large to convert to C _PyTime_t")
  else if bool_decide (seconds < 0) then
    raise (Exn ValueError "sleep length must be non-negative")
  else
    log (EvSleep seconds);;
    modify (λ w, set_now (now w + seconds) w).

(** [int(os.environ.get(key, default))] for an [int] default. *)
Definition int_environ_get (key : string) (default : Z) : M World Z :=
  v ← gets (λ w, environ w !! key);
  match v with
  | None => mret default
  | Some s =>
      match int_of_str s with
      | Some n => mret n
      | None => raise (Exn ValueError ("invalid literal for int() with base 10: " ++ s))
      end
  end.

(** [os.remove(path)] *)
Definition os_remove (path : string) : M World unit :=
  log (EvRemove path);;
  fs ← gets files;
  match fs !! path with
  | None => raise (Exn FileNotFoundError ("No such file or directory: " ++ path))
  | Some _ => modify (set_files (delete path fs))
  end.

(** [shutil.copy2(src, dst)] *)
Definition shutil_copy2 (src dst : string) : M World unit :=
  log (EvCopy src dst);;
  fs ← gets files;
  match fs !! src with
  | None => raise (Exn FileNotFoundError ("No such file or directory: " ++ src))
  | Some content => modify (set_files (<[dst := content]> fs))
  end.

(** [str(uuid.uuid4())] *)
Definition uuid4 : M World string :=
  n ← gets uuids_drawn;
  u ← gets (λ w, uuids w n);
  modify (set_uuids_drawn (S n));;
  mret u.

(** A method call on an [Optional[ObjectStore]]: on [None] the attribute
    lookup fails. *)
Definition on_object_store {A} (o : option ObjectStore) (attr : string)
    (call : ObjectStore → M World A) : M World A :=
  match o with
  | None => raise (Exn AttributeError ("'NoneType' object has no attribute '" ++ attr ++ "'"))
  | Some store => call store
  end.

Definition ObjectStore_get_object_size (o : option ObjectStore) (name : string) : M World Z :=
  log (EvGetObjectSize name);;
  on_object_store o "get_object_size" (λ store, inRemote (get_object_size store name)).

Definition ObjectStore_upload_object (o : option ObjectStore) (object_name filename : string)
    : M World unit :=
  log (EvUploadObject object_name filename);;
  on_object_store o "upload_object" (λ store,
    fs ← gets files;
    inRemote (upload_object store object_name filename fs)).

(** [future.done()] *)
Definition Future_done (f : Future) : M World bool :=
  log (EvDone f);;
  gets (λ w, match fates w !! f with
             | Some (t, _) => bool_decide (t ≤ now w)
             | None => false
             end).

(** [future.exception()], without a timeout: blocks until the call has
    resolved, then returns its exception or [None]. *)
Definition Future_exception (f : Future) : M World (option exn) :=
  log (EvException f);;
  fate ← gets (λ w, fates w !! f);
  match fate with
  | None => λ w, (BlocksForever, w)
  | Some (t, exception_or_none) =>
      modify (λ w, set_now (Z.max (now w) t) w);;
      mret exception_or_none
  end.

(** The pool's side of a blocking wait (no call on the future is made by
    the module): wait until [f] has resolved. *)
Definition Future_join (f : Future) : M World unit :=
  fate ← gets (λ w, fates w !! f);
  match fate with
  | None => λ w, (BlocksForever, w)
  | Some (t, _) => modify (λ w, set_now (Z.max (now w) t) w)
  end.

(** [tempfile.TemporaryDirectory().name] *)
Definition tempfile_TemporaryDirectory : M World string := gets tempdir_name.

(** [broadcast_object_list(object_list, src)]: afterwards every rank holds
    the list of rank [src]. *)
Definition broadcast_object_list (object_list : list string) (src : Z) : M World (list string) :=
  log (EvBroadcast object_list);;
  rank ← gets global_rank;
  if bool_decide (rank = src) then mret object_list else gets leader_objects.

(** ** The retry policy *)

(** Modelled from the spec: [composer.utils.retrying.retry] is not among the
    sources.  Section 4.3: the policy invokes the operation; if it raises an
    error of the transient class it retries, with backoff, until the
    operation succeeds or the attempt budget is exhausted, at which point the
    last error is re-raised unchanged; other errors propagate at once; the
    operation may receive its current retry index.  [spare] counts the
    attempts still allowed after the current one. *)
Fixpoint retry_attempts {St} `{HasWorld St} {A} (exc_class : exn_class)
    (func : Z → M St A) (spare : nat) (i : Z) : M St A :=
  λ s,
  match func (if retry_passes_index then i else 0) s with
  | (Raises e, s') =>
      if isinstance e exc_class then
        match spare with
        | O => (Raises e, s')
        | S spare' =>
            (inW (log (EvBackoff i);;
                  modify (λ w, set_now (now w + backoff_seconds i) w));;
             retry_attempts exc_class func spare' (i + 1)) s'
        end
      else (Raises e, s')
  | r => r
  end.

Definition retry {St} `{HasWorld St} {A} (exc_class : exn_class) (num_attempts : Z)
    (func : Z → M St A) : M St A :=
  retry_attempts exc_class func (Z.to_nat (num_attempts - 1)) 0.

(** ** The worker *)

Definition _build_dbfs_backend (path : string) : M World ObjectStore :=
  if startswith path MLFLOW_DBFS_PATH_PREFIX then
    inRemote (MLFlowObjectStore_init path);;
    mret (MLFlowObjectStore path)
  else
    inRemote (UCObjectStore_validate_path path);;
    inRemote (UCObjectStore_init path);;
    mret (UCObjectStore path).

(** The body of the inner function [upload_file] of
    [_upload_file_to_object_store], before decoration; the variables it
    closes over are arguments here. *)
Definition upload_file_body (object_store : option ObjectStore)
    (remote_file_name local_file_path : string) (overwrite : bool)
    (retry_index : Z) : M World unit :=
  (if bool_decide (retry_index = 0) && negb overwrite then
     (* try / except FileNotFoundError: pass / else: raise FileExistsError *)
     exists_already ←
       try_except
         (ObjectStore_get_object_size object_store remote_file_name;; mret true)
         FileNotFoundError
         (λ _, mret false);
     if (exists_already : bool) then
       raise (Exn FileExistsError
                ("Object " ++ remote_file_name ++
                 " already exists, but overwrite was set to False."))
     else mret tt
   else mret tt);;
  ObjectStore_upload_object object_store remote_file_name local_file_path;;
  os_remove local_file_path.

(** [upload_file] as the name is bound after
    [@retry(ObjectStoreTransientError, num_attempts=num_attempts)]. *)
Definition upload_file (num_attempts : Z) (object_store : option ObjectStore)
    (remote_file_name local_file_path : string) (overwrite : bool) : M World unit :=
  retry ObjectStoreTransientError num_attempts
    (upload_file_body object_store remote_file_name local_file_path overwrite).

Definition _upload_file_to_object_store (remote_folder : string) (is_dbfs : bool)
    (dbfs_path remote_file_name local_file_path : string) (overwrite : bool)
    (num_attempts : Z) : M World Z :=
  object_store ←
    (if is_dbfs then
       store ← _build_dbfs_backend dbfs_path; mret (Some store)
     else inRemote (maybe_create_object_store_from_uri remote_folder));
  local_rank ← gets local_rank;
  local_rank_stagger ← int_environ_get "COMPOSER_LOCAL_RANK_STAGGER_SECONDS" 0;
  time_sleep (local_rank * local_rank_stagger);;
  upload_file num_attempts object_store remote_file_name local_file_path overwrite;;
  mret 0.

Definition run_call (c : UploadCall) : M World Z :=
  _upload_file_to_object_store (call_remote_folder c) (call_is_dbfs c) (call_dbfs_path c)
    (call_remote_file_name c) (call_local_file_path c) (call_overwrite c)
    (call_num_attempts c).

(** ** The uploader object *)

(** The part of [ProcessPoolExecutor] the class relies on. *)
Record Executor := {
  _max_workers : Z;
  _shutdown_thread : bool;
  _pending_work_items : list Future;
}.

Record RemoteUploader := {
  remote_folder : string;
  _upload_staging_folder : string;
  path : string;
  _is_dbfs : bool;
  object_store : option ObjectStore;
  num_attempts : Z;
  executor : Executor;
  futures : list Future;
}.

Definition set_path (p : string) (u : RemoteUploader) : RemoteUploader :=
  {| remote_folder := remote_folder u; _upload_staging_folder := _upload_staging_folder u;
     path := p; _is_dbfs := _is_dbfs u; object_store := object_store u;
     num_attempts := num_attempts u; executor := executor u; futures := futures u |}.

Definition set_object_store (o : option ObjectStore) (u : RemoteUploader) : RemoteUploader :=
  {| remote_folder := remote_folder u; _upload_staging_folder := _upload_staging_folder u;
     path := path u; _is_dbfs := _is_dbfs u; object_store := o;
     num_attempts := num_attempts u; executor := executor u; futures := futures u |}.

Definition set_executor (ex : Executor) (u : RemoteUploader) : RemoteUploader :=
  {| remote_folder := remote_folder u; _upload_staging_folder := _upload_staging_folder u;
     path := path u; _is_dbfs := _is_dbfs u; object_store := object_store u;
     num_attempts := num_attempts u; executor := ex; futures := futures u |}.

Definition set_futures (fs : list Future) (u : RemoteUploader) : RemoteUploader :=
  {| remote_folder := remote_folder u; _upload_staging_folder := _upload_staging_folder u;
     path := path u; _is_dbfs := _is_dbfs u; object_store := object_store u;
     num_attempts := num_attempts u; executor := executor u; futures := fs |}.

(** The state a method runs in: the world and the object [self]. *)
Record Proc := { world : World; self : RemoteUploader }.

#[global] Instance Proc_HasWorld : HasWorld Proc :=
  {| the_world := world; with_world := λ w p, {| world := w; self := self p |} |}.

Definition get_self {A} (f : RemoteUploader → A) : M Proc A := gets (λ p, f (self p)).

Definition set_self (f : RemoteUploader → RemoteUploader) : M Proc unit :=
  modify (λ p, {| world := world p; self := f (self p) |}).

(** [ProcessPoolExecutor(max_workers=n, ...)] *)
Definition ProcessPoolExecutor (max_workers : Z) : M World Executor :=
  if bool_decide (max_workers ≤ 0) then
    raise (Exn ValueError "max_workers must be greater than 0")
  else
    mret {| _max_workers := max_workers; _shutdown_thread := false;
            _pending_work_items := [] |}.

(** [self.executor.submit(_upload_file_to_object_store, **call)] *)
Definition executor_submit (call : UploadCall) : M Proc Future :=
  ex ← get_self executor;
  if _shutdown_thread ex then
    raise (Exn RuntimeError "cannot schedule new futures after shutdown")
  else
    f ← inW (gets futures_made);
    inW (modify (set_futures_made (S f)));;
    inW (log (EvSubmit f call));;
    set_self (set_executor
                {| _max_workers := _max_workers ex; _shutdown_thread := false;
                   _pending_work_items := _pending_work_items ex ++ [f] |});;
    mret f.

Fixpoint join_all (fs : list Future) : M World unit :=
  match fs with
  | [] => mret tt
  | f :: rest => Future_join f;; join_all rest
  end.

(** [self.executor.shutdown(wait=True)]: no further submissions, and the
    caller waits for the calls already submitted. *)
Definition executor_shutdown : M Proc unit :=
  ex ← get_self executor;
  inW (log EvShutdown);;
  set_self (set_executor
              {| _max_workers := _max_workers ex; _shutdown_thread := true;
                 _pending_work_items := _pending_work_items ex |});;
  inW (join_all (_pending_work_items ex)).

(** [RemoteUploader.__init__] *)
Definition __init__ (remote_folder : string) (num_concurrent_uploads num_attempts : Z)
    : M World RemoteUploader :=
  if bool_decide (num_concurrent_uploads < 1) || bool_decide (num_attempts < 1) then
    raise (Exn ValueError
             ("num_concurrent_uploads and num_attempts must be >= 1, but got " ++
              str_of_int num_concurrent_uploads ++ " and " ++ str_of_int num_attempts))
  else
    staging ← tempfile_TemporaryDirectory;
    let '(backend, _, path) := parse_uri remote_folder in
    ex ← ProcessPoolExecutor num_concurrent_uploads;
    mret {| remote_folder := remote_folder;
            _upload_staging_folder := staging;
            path := path;
            _is_dbfs := bool_decide (backend = "dbfs");
            object_store := None;
            num_attempts := num_attempts;
            executor := ex;
            futures := [] |}.

(** [if self.object_store is None: self.object_store = build] *)
Definition build_if_none (build : M World (option ObjectStore)) : M Proc unit :=
  o ← get_self object_store;
  match o with
  | None => store ← inW build; set_self (set_object_store store)
  | Some _ => mret tt
  end.

Definition build_dbfs (p : string) : M World (option ObjectStore) :=
  store ← _build_dbfs_backend p; mret (Some store).

(** The first statement of [init], the [if not self._is_dbfs: ... else: ...];
    the result says whether the [return] inside it was executed. *)
Definition init_backend : M Proc bool :=
  is_dbfs ← get_self _is_dbfs;
  if negb is_dbfs then
    folder ← get_self remote_folder;
    build_if_none (inRemote (maybe_create_object_store_from_uri folder));;
    mret false
  else
    p ← get_self path;
    if negb (startswith p MLFLOW_DBFS_PATH_PREFIX) then
      build_if_none (build_dbfs p);;
      mret true
    else
      rank ← inW (gets global_rank);
      (if bool_decide (rank = 0) then
         build_if_none (build_dbfs p);;
         o ← get_self object_store;
         match o with
         | Some (MLFlowObjectStore _ as store) =>
             resolved ← inW (inRemote (get_dbfs_path store p));
             set_self (set_path resolved)
         | _ => raise (Exn AssertionError "")
         end
       else mret tt);;
      p ← get_self path;
      path_list ← inW (broadcast_object_list [p] 0);
      match path_list with
      | [] => raise (Exn (OtherError "IndexError") "list index out of range")
      | p0 :: _ =>
          set_self (set_path p0);;
          if bool_decide (rank ≠ 0) then
            store ← inW (_build_dbfs_backend p0);
            set_self (set_object_store (Some store));;
            mret false
          else mret false
      end.

(** The credential probe: one call of [validate_credentials]. *)
Definition validate_probe : M Proc unit :=
  o ← get_self object_store;
  inW (log (EvValidate o ".credentials_validated_successfully"));;
  inW (inRemote (validate_credentials o ".credentials_validated_successfully")).

(** [RemoteUploader.init] *)
Definition init : M Proc unit :=
  returned ← init_backend;
  if (returned : bool) then mret tt
  else
    rank ← inW (gets global_rank);
    if bool_decide (rank = 0) then
      attempts ← get_self num_attempts;
      retry ObjectStoreTransientError attempts (λ _, validate_probe)
    else mret tt.

(** [RemoteUploader.upload_file_async] *)
Definition upload_file_async (remote_file_name file_path : string) (overwrite : bool)
    : M Proc Future :=
  staging ← get_self _upload_staging_folder;
  name ← inW uuid4;
  let copied_path := os_path_join staging name in
  (* os.makedirs(staging, exist_ok=True): directories are not part of [files] *)
  inW (shutil_copy2 file_path copied_path);;
  u ← gets self;
  future ← executor_submit
    {| call_remote_folder := remote_folder u;
       call_is_dbfs := _is_dbfs u;
       call_dbfs_path := path u;
       call_remote_file_name := remote_file_name;
       call_local_file_path := copied_path;
       call_overwrite := overwrite;
       call_num_attempts := num_attempts u |};
  fs ← get_self futures;
  set_self (set_futures (fs ++ [future]));;
  mret future.

(** The first loop of [check_workers]. *)
Fixpoint check_workers_scan (fs done_futures : list Future) : M Proc (list Future) :=
  match fs with
  | [] => mret done_futures
  | future :: rest =>
      is_done ← inW (Future_done future);
      if (is_done : bool) then
        exception_or_none ← inW (Future_exception future);
        match exception_or_none with
        | Some e => raise e
        | None => check_workers_scan rest (done_futures ++ [future])
        end
      else check_workers_scan rest done_futures
  end.

(** The second loop of [check_workers]. *)
Fixpoint check_workers_remove (done_futures : list Future) : M Proc unit :=
  match done_futures with
  | [] => mret tt
  | future :: rest =>
      fs ← get_self futures;
      match list_remove future fs with
      | None => raise (Exn ValueError "list.remove(x): x not in list")
      | Some fs' => set_self (set_futures fs');; check_workers_remove rest
      end
  end.

(** [RemoteUploader.check_workers] *)
Definition check_workers : M Proc unit :=
  fs ← get_self futures;
  done_futures ← check_workers_scan fs [];
  check_workers_remove done_futures.

(** The loop of [wait]. *)
Fixpoint wait_loop (fs : list Future) : M Proc unit :=
  match fs with
  | [] => mret tt
  | future :: rest =>
      exception_or_none ← inW (Future_exception future);
      match exception_or_none with
      | Some e => raise e
      | None => wait_loop rest
      end
  end.

(** [RemoteUploader.wait] *)
Definition wait : M Proc unit :=
  fs ← get_self futures;
  wait_loop fs;;
  set_self (set_futures []).

(** [RemoteUploader.wait_and_close] *)
Definition wait_and_close : M Proc unit :=
  wait;;
  executor_shutdown.

(** The calls a client can make on a constructed uploader. *)
Inductive MethodCall :=
| Call_init
| Call_upload_file_async (remote_file_name file_path : string) (overwrite : bool)
| Call_check_workers
| Call_wait
| Call_wait_and_close.

Definition call_method (c : MethodCall) : M Proc unit :=
  match c with
  | Call_init => init
  | Call_upload_file_async name file overwrite => upload_file_async name file overwrite;; mret tt
  | Call_check_workers => check_workers
  | Call_wait => wait
  | Call_wait_and_close => wait_and_close
  end.

(** A client's history: the calls in order, each one running in the state
    the previous one left, whether it returned or raised (the client may
    catch the exception and go on); a call that blocks forever ends it. *)
Fixpoint call_methods (cs : list MethodCall) (p : Proc) : Proc :=
  match cs with
  | [] => p
  | c :: rest =>
      match call_method c p with
      | (BlocksForever, p') => p'
      | (_, p') => call_methods rest p'
      end
  end.

End Program.

(** ** A concrete set of collaborators

    An in-memory remote side: a table of objects, and scripts of errors
    that the next uploads and the next credential probes raise.  It serves
    to run the program on concrete inputs. *)
Module Example.

Record remote_state := {
  objects : gmap string (list Byte.byte);
  upload_errors : list exn;
  validate_errors : list exn;
}.

Definition example_upload_object (store : ObjectStore) (name filename : string)
    (fs : gmap string (list Byte.byte)) : M remote_state unit :=
  λ r,
  match upload_errors r with
  | e :: rest =>
      (Raises e, {| objects := objects r; upload_errors := rest;
                    validate_errors := validate_errors r |})
  | [] =>
      match fs !! filename with
      | None => (Raises (Exn FileNotFoundError filename), r)
      | Some content =>
          (Returns tt, {| objects := <[name := content]> (objects r); upload_errors := [];
                          validate_errors := validate_errors r |})
      end
  end.

Definition example_get_object_size (store : ObjectStore) (name : string)
    : M remote_state Z :=
  λ r,
  match objects r !! name with
  | Some content => (Returns (Z.of_nat (length content)), r)
  | None => (Raises (Exn FileNotFoundError name), r)
  end.

Definition example_validate_credentials (o : option ObjectStore) (name : string)
    : M remote_state unit :=
  λ r,
  match validate_errors r with
  | e :: rest =>
      (Raises e, {| objects := objects r; upload_errors := upload_errors r;
                    validate_errors := rest |})
  | [] => (Returns tt, r)
  end.

Definition example_parse_uri (uri : string) : string * string * string :=
  if startswith uri "dbfs:/" then ("dbfs", "", String.substring 6 (String.length uri - 6) uri)
  else ("s3", "bucket", uri).

Definition collaborators : Collaborators :=
  {| Remote := remote_state;
     MLFLOW_DBFS_PATH_PREFIX := "databricks/mlflow-tracking/";
     MLFlowObjectStore_init := λ _, mret tt;
     get_dbfs_path := λ _ p, mret p;
     UCObjectStore_validate_path := λ _, mret tt;
     UCObjectStore_init := λ _, mret tt;
     get_object_size := example_get_object_size;
     upload_object := example_upload_object;
     parse_uri := example_parse_uri;
     maybe_create_object_store_from_uri := λ uri, mret (Some (ProviderObjectStore uri));
     validate_credentials := example_validate_credentials;
     backoff_seconds := λ i, 2 ^ i;
     retry_passes_index := true;
     int_of_str := λ s, Z.of_int <$> NilZero.int_of_string s |}.

#[local] Existing Instance collaborators.

Definition transient : exn := Exn ObjectStoreTransientError "connection reset".
Definition broken : exn := Exn (OtherError "PermissionError") "access denied".

Definition empty_remote : remote_state :=
  {| objects := ∅; upload_errors := []; validate_errors := [] |}.

(** A world at time 10 on rank 0 with one local file and three futures:
    0 succeeded at time 1, 1 failed at time 2, 2 will succeed at time 50;
    future 3 never resolves. *)
Definition w0 : World :=
  {| now := 10;
     files := {[ "/data/ckpt.pt" := [Byte.x01; Byte.x02] ]};
     remote := empty_remote;
     environ := ∅;
     local_rank := 0;
     global_rank := 0;
     fates := {[ 0%nat := (1, None); 1%nat := (2, Some broken); 2%nat := (50, None) ]};
     futures_made := 4;
     uuids := λ n, nth n ["uuid-0"; "uuid-1"; "uuid-2"] "uuid-3";
     uuids_drawn := 0;
     tempdir_name := "/tmp/tmpabc";
     leader_objects := ["databricks/mlflow-tracking/1/2/"];
     trace := [] |}.

Definition with_remote (r : remote_state) (w : World) : World := set_remote r w.

Definition with_environ (env : gmap string string) (rank : Z) (w : World) : World :=
  {| now := now w; files := files w; remote := remote w; environ := env;
     local_rank := rank; global_rank := global_rank w; fates := fates w;
     futures_made := futures_made w; uuids := uuids w; uuids_drawn := uuids_drawn w;
     tempdir_name := tempdir_name w; leader_objects := leader_objects w;
     trace := trace w |}.

Definition with_global_rank (rank : Z) (w : World) : World :=
  {| now := now w; files := files w; remote := remote w; environ := environ w;
     local_rank := local_rank w; global_rank := rank; fates := fates w;
     futures_made := futures_made w; uuids := uuids w; uuids_drawn := uuids_drawn w;
     tempdir_name := tempdir_name w; leader_objects := leader_objects w;
     trace := trace w |}.

(** An uploader for [s3://bucket/run] tracking the futures [fs]. *)
Definition uploader (fs : list Future) : RemoteUploader :=
  {| remote_folder := "s3://bucket/run";
     _upload_staging_folder := "/tmp/tmpabc";
     path := "s3://bucket/run";
     _is_dbfs := false;
     object_store := None;
     num_attempts := 3;
     executor := {| _max_workers := 2; _shutdown_thread := false;
                    _pending_work_items := fs |};
     futures := fs |}.

(** An uploader for a [dbfs:/] folder whose path is [p]. *)
Definition dbfs_uploader (p : string) : RemoteUploader :=
  {| remote_folder := "dbfs:/" ++ p;
     _upload_staging_folder := "/tmp/tmpabc";
     path := p;
     _is_dbfs := true;
     object_store := None;
     num_attempts := 3;
     executor := {| _max_workers := 2; _shutdown_thread := false;
                    _pending_work_items := [] |};
     futures := [] |}.

Definition proc (w : World) (u : RemoteUploader) : Proc := {| world := w; self := u |}.

(** Remote sides: one that already holds the object [obj], one whose next
    two uploads fail with a transient error, one whose next three
    credential probes do. *)
Definition holding_obj : remote_state :=
  {| objects := {[ "obj" := [Byte.x2a] ]}; upload_errors := []; validate_errors := [] |}.

Definition flaky_twice : remote_state :=
  {| objects := ∅; upload_errors := [transient; transient]; validate_errors := [] |}.

Definition rejecting : remote_state :=
  {| objects := ∅; upload_errors := [];
     validate_errors := [transient; transient; transient] |}.

(** The uploader tracking [fs] in the world [w0]. *)
Definition tracking (fs : list Future) : Proc := proc w0 (uploader fs).

(** The state in which [wait_and_close()] leaves an uploader that tracked
    the futures 0 and 2: both have succeeded, the pool is shut down. *)
Definition closed : Proc :=
  Eval vm_compute in (wait_and_close (tracking [0; 2]%nat)).2.

(** The state in which [check_workers()] leaves an uploader that tracked
    the futures 0, 1 and 2, of which 1 has failed. *)
Definition checked : Proc :=
  Eval vm_compute in (check_workers (tracking [0; 1; 2]%nat)).2.

(** The state in which the first statement of [init] leaves an uploader
    for [s3://bucket/run] on rank 0, the remote side being [rejecting]. *)
Definition backend_built : Proc :=
  Eval vm_compute in
    (init_backend (proc (set_remote rejecting w0) (uploader []))).2.

Definition s3_store : ObjectStore := ProviderObjectStore "s3://bucket/run".

(** The states in which [wait()] and [check_workers()] leave an uploader
    that tracked the futures 0 and 2. *)
Definition waited : Proc := Eval vm_compute in (wait (tracking [0; 2]%nat)).2.

Definition polled : Proc := Eval vm_compute in (check_workers (tracking [0; 2]%nat)).2.

(** A worker's world on local rank 3 whose stagger variable is not an
    integer. *)
Definition misconfigured : World :=
  with_environ {[ "COMPOSER_LOCAL_RANK_STAGGER_SECONDS" := "x7" ]} 3 w0.

(** A worker's world on local rank 3 with a stagger of 5 seconds, the same
    on local rank 0, and a world on local rank 3 whose stagger makes the
    delay longer than [time.sleep] accepts. *)
Definition staggering : World :=
  with_environ {[ "COMPOSER_LOCAL_RANK_STAGGER_SECONDS" := "5" ]} 3 w0.

Definition staggering_rank0 : World :=
  with_environ {[ "COMPOSER_LOCAL_RANK_STAGGER_SECONDS" := "5" ]} 0 w0.

Definition overlong : World :=
  with_environ {[ "COMPOSER_LOCAL_RANK_STAGGER_SECONDS" := "4000000000" ]} 3 w0.

(** An uploader for an MLflow folder, on rank 1 and on rank 0. *)
Definition mlflow_follower : Proc :=
  proc (with_global_rank 1 w0) (dbfs_uploader "databricks/mlflow-tracking/{x}/{y}").

Definition mlflow_leader : Proc :=
  proc w0 (dbfs_uploader "databricks/mlflow-tracking/{x}/{y}").

End Example.

(** ** Collaborators whose size probe can fail

    The remote side is the list of errors that the next size probes raise;
    once it is empty, a probe finds an object of 7 bytes.  Uploads always
    succeed. *)
Module Flaky.

Definition collaborators : Collaborators :=
  {| Remote := list exn;
     MLFLOW_DBFS_PATH_PREFIX := "databricks/mlflow-tracking/";
     MLFlowObjectStore_init := λ _, mret tt;
     get_dbfs_path := λ _ p, mret p;
     UCObjectStore_validate_path := λ _, mret tt;
     UCObjectStore_init := λ _, mret tt;
     get_object_size := λ _ _ r,
       match r with
       | e :: rest => (Raises e, rest)
       | [] => (Returns 7, [])
       end;
     upload_object := λ _ _ _ _, mret tt;
     parse_uri := Example.example_parse_uri;
     maybe_create_object_store_from_uri := λ uri, mret (Some (ProviderObjectStore uri));
     validate_credentials := λ _ _, mret tt;
     backoff_seconds := λ i, 2 ^ i;
     retry_passes_index := true;
     int_of_str := λ s, Z.of_int <$> NilZero.int_of_string s |}.

#[local] Existing Instance collaborators.

(** A worker's world in which the next size probe fails with a transient
    error. *)
Definition w1 : World :=
  {| now := 0;
     files := {[ "/tmp/tmpabc/uuid-0" := [Byte.x01] ]};
     remote := [Example.transient];
     environ := ∅;
     local_rank := 0;
     global_rank := 0;
     fates := ∅;
     futures_made := 0;
     uuids := λ _, "uuid";
     uuids_drawn := 0;
     tempdir_name := "/tmp/tmpabc";
     leader_objects := [];
     trace := [] |}.

End Flaky.

(** ** Reading a world

    Definitions used to state what the methods do: they read the clock and
    the futures' fates, and compute nothing of the program. *)
Section Readings.
Context `{Collaborators}.

(** [f] has reached a terminal state by the world's clock. *)
Definition resolved (w : World) (f : Future) : bool :=
  match fates w !! f with
  | Some (t, _) => bool_decide (t ≤ now w)
  | None => false
  end.

(** [f] has reached the terminal state "succeeded". *)
Definition succeeded (w : World) (f : Future) : bool :=
  match fates w !! f with
  | Some (t, None) => bool_decide (t ≤ now w)
  | _ => false
  end.

(** [f] has reached the terminal state "failed", with this exception. *)
Definition failed_with (w : World) (f : Future) : option exn :=
  match fates w !! f with
  | Some (t, Some e) => if bool_decide (t ≤ now w) then Some e else None
  | _ => None
  end.

(** The exception of the first handle of [fs], in list order, that has
    failed by now. *)
Fixpoint first_failure (w : World) (fs : list Future) : option exn :=
  match fs with
  | [] => None
  | f :: rest =>
      match failed_with w f with
      | Some e => Some e
      | None => first_failure w rest
      end
  end.

(** [f] resolves at some time, with success. *)
Definition resolves_successfully (w : World) (f : Future) : Prop :=
  ∃ t, fates w !! f = Some (t, None).

(** [f] resolves at some time, with the exception [e]. *)
Definition resolves_with_error (w : World) (f : Future) (e : exn) : Prop :=
  ∃ t, fates w !! f = Some (t, Some e).

(** The stagger configuration as the worker reads it: unset means 0, a
    value that [int()] rejects means none. *)
Definition stagger_seconds (w : World) : option Z :=
  match environ w !! "COMPOSER_LOCAL_RANK_STAGGER_SECONDS" with
  | None => Some 0
  | Some s => int_of_str s
  end.

(** The calls that the first loop of [check_workers] makes on the handles
    [fs]: [done()] on each one up to the first failed one, [exception()] on
    those that have resolved. *)
Fixpoint scan_events (w : World) (fs : list Future) : list Event :=
  match fs with
  | [] => []
  | f :: rest =>
      if resolved w f then
        EvDone f :: EvException f ::
          (if failed_with w f is Some _ then [] else scan_events w rest)
      else EvDone f :: scan_events w rest
  end.

(** Two worlds with the same clock and the same fates. *)
Definition same_futures (w w' : World) : Prop := now w = now w' ∧ fates w = fates w'.

(** The world once the caller has called [f.exception()] and, if [f]
    resolves, has waited until then. *)
Definition awaited (w : World) (f : Future) : World :=
  match fates w !! f with
  | Some (t, _) => set_now (Z.max (now w) t) (set_trace (trace w ++ [EvException f])%list w)
  | None => set_trace (trace w ++ [EvException f])%list w
  end.

(** A statement that leaves the local files as they are, however it ends. *)
Definition keeps_files {A} (c : M World A) : Prop := ∀ w, files (c w).2 = files w.

(** A statement that deletes [path] when it returns and leaves the local
    files as they are when it does not. *)
Definition removes_on_return {A} (path : string) (c : M World A) : Prop :=
  ∀ w,
    match c w with
    | (Returns _, w') => files w' = delete path (files w) ∧ is_Some (files w !! path)
    | (_, w') => files w' = files w
    end.

(** A statement whose new events all satisfy [P]. *)
Definition emits {A} (P : Event → Prop) (c : M World A) : Prop :=
  ∀ w, ∃ evs, trace (c w).2 = (trace w ++ evs)%list ∧ Forall P evs.

(** A statement that acts on the remote side only. *)
Definition only_remote {A} (c : M World A) : Prop :=
  ∀ w, ∃ r, (c w).2 = set_remote r w.

(** The world in which [upload_file()] is called: the backend has been
    built (the remote side is [r]) and the worker has slept [d] seconds. *)
Definition staggered (r : Remote) (d : Z) (w : World) : World :=
  set_now (now w + d) (set_trace (trace w ++ [EvSleep d])%list (set_remote r w)).

(** The first statement of [_upload_file_to_object_store]: the backend
    object that the task builds for itself. *)
Definition worker_object_store (remote_folder : string) (is_dbfs : bool)
    (dbfs_path : string) : M World (option ObjectStore) :=
  if is_dbfs then
    store ← _build_dbfs_backend dbfs_path; mret (Some store)
  else inRemote (maybe_create_object_store_from_uri remote_folder).

(** The world [w] after a sleep of [d] seconds: the sleep is logged and the
    clock has moved by [d]. *)
Definition slept (d : Z) (w : World) : World :=
  set_now (now w + d) (set_trace (trace w ++ [EvSleep d])%list w).

(** The state after the existence probe of [name]. *)
Definition probed (store : ObjectStore) (name : string) (w : World) : World :=
  set_remote (get_object_size store name (remote w)).2
    (set_trace (trace w ++ [EvGetObjectSize name])%list w).

(** The two construction bounds as the object holds them. *)
Definition bounds (u : RemoteUploader) : Z * Z := (_max_workers (executor u), num_attempts u).

(** A method statement that leaves the two bounds as they are. *)
Definition keeps_bounds {A} (c : M Proc A) : Prop :=
  ∀ p, bounds (self (c p).2) = bounds (self p).

(** A statement that changes, of the world, only the remote side and the
    trace, to which it adds events that satisfy [P]. *)
Definition touches {A} (P : Event → Prop) (c : M World A) : Prop :=
  ∀ w, ∃ r evs,
    (c w).2 = set_remote r (set_trace (trace w ++ evs)%list w) ∧ Forall P evs.

(** The same for a method statement, which may also change [self]. *)
Definition method_touches {A} (P : Event → Prop) (c : M Proc A) : Prop :=
  ∀ p, ∃ r evs,
    world (c p).2 = set_remote r (set_trace (trace (world p) ++ evs)%list (world p)) ∧
    Forall P evs.

(** The retry policy when every allowed attempt raises an error of the
    retried class: [raises_each_time cls func spare i s e s'] says that the
    attempts numbered [i], ..., [i + spare] all do, the last one raising [e]
    and leaving the state [s']. *)
Fixpoint raises_each_time {St} `{HasWorld St} {A} (cls : exn_class) (func : Z → M St A)
    (spare : nat) (i : Z) (s : St) (e : exn) (s' : St) : Prop :=
  ∃ e0 s0,
    func (if retry_passes_index then i else 0) s = (Raises e0, s0) ∧
    isinstance e0 cls = true ∧
    match spare with
    | O => e = e0 ∧ s' = s0
    | S spare' =>
        raises_each_time cls func spare' (i + 1)
          (with_world (set_now (now (the_world s0) + backoff_seconds i)
                         (set_trace (trace (the_world s0) ++ [EvBackoff i])%list
                            (the_world s0))) s0)
          e s'
    end.

Definition is_upload_event (ev : Event) : bool :=
  match ev with
  | EvGetObjectSize _ | EvUploadObject _ _ | EvRemove _ | EvBackoff _ => true
  | _ => false
  end.

Definition is_sleep (ev : Event) : bool :=
  match ev with
  | EvSleep _ => true
  | _ => false
  end.

Definition is_validate (ev : Event) : bool :=
  match ev with
  | EvValidate _ _ => true
  | _ => false
  end.

(** The staged path that the next [upload_file_async] call will use. *)
Definition next_staged_path (p : Proc) : string :=
  os_path_join (_upload_staging_folder (self p)) (uuids (world p) (uuids_drawn (world p))).

(** The keyword arguments of the next submission. *)
Definition next_call (p : Proc) (remote_file_name : string) (overwrite : bool) : UploadCall :=
  {| call_remote_folder := remote_folder (self p);
     call_is_dbfs := _is_dbfs (self p);
     call_dbfs_path := path (self p);
     call_remote_file_name := remote_file_name;
     call_local_file_path := next_staged_path p;
     call_overwrite := overwrite;
     call_num_attempts := num_attempts (self p) |}.

(** Is the event a call of [future.exception()]? *)
Definition is_exception_call (ev : Event) : bool :=
  match ev with
  | EvException _ => true
  | _ => false
  end.

(** Is the event a size probe of the destination? *)
Definition is_probe (ev : Event) : bool :=
  match ev with
  | EvGetObjectSize _ => true
  | _ => false
  end.

(** How many size probes a list of events holds. *)
Definition probe_count (evs : list Event) : nat := length (List.filter is_probe evs).

(** Is the event a call of [os.remove]? *)
Definition is_remove (ev : Event) : bool :=
  match ev with
  | EvRemove _ => true
  | _ => false
  end.

(** The events [evs] end with an upload of [path] as [name] followed by
    the removal of [path], and hold no other removal. *)
Definition ends_with_removal (name path : string) (evs : list Event) : Prop :=
  ∃ pre, evs = (pre ++ [EvUploadObject name path; EvRemove path])%list ∧
         Forall (λ ev, is_remove ev = false) pre.

(** Either nothing was removed and the statement did not return, or the
    removal came last, right after an upload, and the statement did not end
    in an error that the retry policy retries. *)
Definition removes_last {A} (name path : string) (r : outcome A) (evs : list Event) : Prop :=
  (Forall (λ ev, is_remove ev = false) evs ∧ ∀ a, r ≠ Returns a) ∨
  (ends_with_removal name path evs ∧
   ∀ e, r = Raises e → isinstance e ObjectStoreTransientError = false).

(** The client that [_build_dbfs_backend] returns for a path. *)
Definition dbfs_backend_for (p : string) : ObjectStore :=
  if startswith p MLFLOW_DBFS_PATH_PREFIX then MLFlowObjectStore p else UCObjectStore p.

(** [self.futures] lists futures of this pool, each one once, in the order
    in which the pool created them. *)
Definition tracks_in_order (p : Proc) : Prop :=
  StronglySorted lt (futures (self p)) ∧
  Forall (λ f, (f < futures_made (world p))%nat) (futures (self p)) ∧
  Forall (λ f, f ∈ _pending_work_items (executor (self p))) (futures (self p)).

(** A method statement that leaves a part [g] of [self] as it is. *)
Definition keeps_part {B A} (g : RemoteUploader → B) (c : M Proc A) : Prop :=
  ∀ p, g (self (c p).2) = g (self p).

(** The parts of [self] that [init] does not assign. *)
Definition tracked_part (u : RemoteUploader) : list Future * Executor :=
  (futures u, executor u).

End Readings.

(** * Properties *)

(** Unfolds the monad's operations so that a statement runs on its state. *)
Ltac run :=
  unfold mbind, M_bind, mret, M_ret, inW, zoom, gets, modify, raise, log,
    get_self, set_self; cbn.

(** ** The futures tracked in [self.futures] *)

Section Futures.
Context `{Collaborators}.


Lemma resolved_same w w' f : same_futures w w' → resolved w f = resolved w' f.
Proof. intros [Hn Hf]. unfold resolved. by rewrite Hn, Hf. Qed.

Lemma succeeded_same w w' f : same_futures w w' → succeeded w f = succeeded w' f.
Proof. intros [Hn Hf]. unfold succeeded. by rewrite Hn, Hf. Qed.

Lemma failed_with_same w w' f : same_futures w w' → failed_with w f = failed_with w' f.
Proof. intros [Hn Hf]. unfold failed_with. by rewrite Hn, Hf. Qed.

Lemma first_failure_same w w' fs : same_futures w w' → first_failure w fs = first_failure w' fs.
Proof.
  intros Hs. induction fs as [|f rest IH]; [done|].
  cbn. by rewrite (failed_with_same w w' f Hs), IH.
Qed.

Lemma filter_succeeded_same w w' fs :
  same_futures w w' → List.filter (succeeded w) fs = List.filter (succeeded w') fs.
Proof.
  intros Hs. apply List.filter_ext. intros f. by apply succeeded_same.
Qed.

Lemma scan_events_same w w' fs : same_futures w w' → scan_events w fs = scan_events w' fs.
Proof.
  intros Hs. induction fs as [|f rest IH]; [done|].
  cbn. by rewrite (resolved_same w w' f Hs), (failed_with_same w w' f Hs), IH.
Qed.

Lemma check_workers_scan_run fs : ∀ acc p,
  check_workers_scan fs acc p =
    (match first_failure (world p) fs with
     | Some e => Raises e
     | None => Returns (acc ++ List.filter (succeeded (world p)) fs)%list
     end,
     {| world := set_trace (trace (world p) ++ scan_events (world p) fs)%list (world p);
        self := self p |}).
Proof.
  induction fs as [|f rest IH]; intros acc [w u].
  - cbn. rewrite !app_nil_r. by destruct w.
  - cbn [check_workers_scan first_failure scan_events List.filter].
    unfold Future_done, Future_exception. run.
    unfold resolved, succeeded, failed_with.
    destruct (fates w !! f) as [[t [e|]]|] eqn:Hf; [case_bool_decide..|]; cbn.
    + rewrite Hf. cbn. by rewrite Z.max_l, <- app_assoc by done.
    + rewrite IH. cbn.
      set (w1 := set_trace _ w).
      assert (same_futures w1 w) as Hs by done.
      rewrite (first_failure_same _ _ _ Hs), (filter_succeeded_same _ _ _ Hs),
        (scan_events_same _ _ _ Hs).
      by rewrite <- app_assoc.
    + rewrite Hf. cbn. rewrite IH, Z.max_l by done. cbn.
      set (w1 := set_now _ _).
      assert (same_futures w1 w) as Hs by done.
      rewrite (first_failure_same _ _ _ Hs), (filter_succeeded_same _ _ _ Hs),
        (scan_events_same _ _ _ Hs).
      rewrite <- !app_assoc. cbn. by destruct (first_failure w rest).
    + rewrite IH. cbn.
      set (w1 := set_trace _ w).
      assert (same_futures w1 w) as Hs by done.
      rewrite (first_failure_same _ _ _ Hs), (filter_succeeded_same _ _ _ Hs),
        (scan_events_same _ _ _ Hs).
      by rewrite <- app_assoc.
    + rewrite IH. cbn.
      set (w1 := set_trace _ w).
      assert (same_futures w1 w) as Hs by done.
      rewrite (first_failure_same _ _ _ Hs), (filter_succeeded_same _ _ _ Hs),
        (scan_events_same _ _ _ Hs).
      by rewrite <- app_assoc.
Qed.

Lemma list_remove_first {A} `{EqDecision A} (P : A → bool) (pre : list A) x l :
  Forall (λ y, P y = false) pre → P x = true →
  list_remove x (pre ++ x :: l) = Some (pre ++ l)%list.
Proof.
  intros Hpre Hx. induction Hpre as [|y pre Hy _ IH]; cbn.
  - by rewrite decide_True.
  - rewrite decide_False by congruence. by rewrite IH.
Qed.

Lemma check_workers_remove_run (P : Future → bool) l : ∀ pre p,
  Forall (λ y, P y = false) pre →
  futures (self p) = (pre ++ l)%list →
  check_workers_remove (List.filter P l) p =
    (Returns tt,
     {| world := world p;
        self := set_futures (pre ++ List.filter (λ x, negb (P x)) l)%list (self p) |}).
Proof.
  induction l as [|x l IH]; intros pre [w u] Hpre Hfs; cbn in *.
  - rewrite <- Hfs. by destruct u.
  - destruct (P x) eqn:HP; cbn.
    + run. rewrite Hfs, (list_remove_first P) by done. cbn.
      rewrite (IH pre) by done. done.
    + rewrite (IH (pre ++ [x])%list).
      * by rewrite <- app_assoc.
      * apply Forall_app. by split; [|constructor].
      * by rewrite <- app_assoc.
Qed.

Theorem check_workers_run p :
  check_workers p =
    let w' := set_trace (trace (world p) ++ scan_events (world p) (futures (self p)))%list
                (world p) in
    match first_failure (world p) (futures (self p)) with
    | Some e => (Raises e, {| world := w'; self := self p |})
    | None =>
        (Returns tt,
         {| world := w';
            self := set_futures
                      (List.filter (λ f, negb (succeeded (world p) f)) (futures (self p)))
                      (self p) |})
    end.
Proof.
  destruct p as [w u]. unfold check_workers. run.
  rewrite check_workers_scan_run. cbn.
  destruct (first_failure w (futures u)); [done|].
  by rewrite (check_workers_remove_run (succeeded w) (futures u) []).
Qed.


Lemma awaited_fates w f : fates (awaited w f) = fates w.
Proof. unfold awaited. by destruct (fates w !! f) as [[??]|]. Qed.

Lemma awaited_files w f : files (awaited w f) = files w.
Proof. unfold awaited. by destruct (fates w !! f) as [[??]|]. Qed.

Lemma awaited_trace w f : trace (awaited w f) = (trace w ++ [EvException f])%list.
Proof. unfold awaited. by destruct (fates w !! f) as [[??]|]. Qed.

Lemma awaited_now w f : now w ≤ now (awaited w f).
Proof. unfold awaited. destruct (fates w !! f) as [[??]|]; cbn; lia. Qed.

Lemma awaited_resolved w f : is_Some (fates w !! f) → resolved (awaited w f) f = true.
Proof.
  intros [[t eo] Hf]. unfold resolved, awaited. rewrite Hf. cbn. rewrite Hf.
  apply bool_decide_eq_true. lia.
Qed.

Lemma resolved_mono w w' f :
  fates w' = fates w → now w ≤ now w' → resolved w f = true → resolved w' f = true.
Proof.
  intros Hf Hn. unfold resolved. rewrite Hf.
  destruct (fates w !! f) as [[t ?]|]; [|done].
  rewrite !bool_decide_eq_true. lia.
Qed.

Lemma fold_awaited_fates fs : ∀ w, fates (fold_left awaited fs w) = fates w.
Proof. induction fs as [|f fs IH]; intros w; cbn; [done|]. by rewrite IH, awaited_fates. Qed.

Lemma fold_awaited_files fs : ∀ w, files (fold_left awaited fs w) = files w.
Proof. induction fs as [|f fs IH]; intros w; cbn; [done|]. by rewrite IH, awaited_files. Qed.

Lemma fold_awaited_trace fs : ∀ w,
  trace (fold_left awaited fs w) = (trace w ++ map EvException fs)%list.
Proof.
  induction fs as [|f fs IH]; intros w; cbn; [by rewrite app_nil_r|].
  by rewrite IH, awaited_trace, <- app_assoc.
Qed.

Lemma fold_awaited_now fs : ∀ w, now w ≤ now (fold_left awaited fs w).
Proof.
  induction fs as [|f fs IH]; intros w; cbn; [done|].
  etrans; [apply (awaited_now w f)|apply IH].
Qed.

Lemma fold_awaited_resolved fs : ∀ w,
  Forall (λ f, is_Some (fates w !! f)) fs →
  Forall (λ f, resolved (fold_left awaited fs w) f = true) fs.
Proof.
  induction fs as [|f fs IH]; intros w Hfs; cbn; [constructor|].
  inversion_clear Hfs as [|?? Hf Hrest]. constructor.
  - apply (resolved_mono (awaited w f)).
    + by rewrite fold_awaited_fates.
    + apply fold_awaited_now.
    + by apply awaited_resolved.
  - apply IH. eapply Forall_impl; [exact Hrest|]. intros g Hg. by rewrite awaited_fates.
Qed.

Lemma wait_loop_step_ok f rest w u t :
  fates w !! f = Some (t, None) →
  wait_loop (f :: rest) {| world := w; self := u |} =
  wait_loop rest {| world := awaited w f; self := u |}.
Proof.
  intros Hf. cbn. unfold Future_exception, awaited. run. by rewrite Hf.
Qed.

Lemma wait_loop_step_error f rest w u t e :
  fates w !! f = Some (t, Some e) →
  wait_loop (f :: rest) {| world := w; self := u |} =
  (Raises e, {| world := awaited w f; self := u |}).
Proof.
  intros Hf. cbn. unfold Future_exception, awaited. run. by rewrite Hf.
Qed.

Lemma wait_loop_step_never f rest w u :
  fates w !! f = None →
  wait_loop (f :: rest) {| world := w; self := u |} =
  (BlocksForever, {| world := awaited w f; self := u |}).
Proof.
  intros Hf. cbn. unfold Future_exception, awaited. run. by rewrite Hf.
Qed.

Lemma wait_loop_app pre : ∀ rest w u,
  Forall (resolves_successfully w) pre →
  wait_loop (pre ++ rest) {| world := w; self := u |} =
  wait_loop rest {| world := fold_left awaited pre w; self := u |}.
Proof.
  induction pre as [|f pre IH]; intros rest w u Hpre; [done|].
  inversion_clear Hpre as [|?? [t Hf] Hrest].
  rewrite <- app_comm_cons, (wait_loop_step_ok _ _ _ _ t Hf). cbn.
  apply IH. eapply Forall_impl; [exact Hrest|].
  intros g [t' Hg]. exists t'. by rewrite awaited_fates.
Qed.


Lemma failed_with_resolved w f e : failed_with w f = Some e → resolved w f = true.
Proof.
  unfold failed_with, resolved.
  destruct (fates w !! f) as [[t [e'|]]|]; [|done..].
  by case_bool_decide.
Qed.

Lemma failed_with_not_succeeded w f e : failed_with w f = Some e → succeeded w f = false.
Proof.
  unfold failed_with, succeeded. by destruct (fates w !! f) as [[t [e'|]]|].
Qed.

Lemma succeeded_resolved w f : succeeded w f = true → resolved w f = true.
Proof.
  unfold succeeded, resolved. by destruct (fates w !! f) as [[t [e'|]]|].
Qed.

Lemma failed_with_later w f e t :
  now w ≤ t → failed_with w f = Some e → failed_with (set_now t w) f = Some e.
Proof.
  unfold failed_with. cbn. intros Ht.
  destruct (fates w !! f) as [[t' [e'|]]|]; [|done..].
  case_bool_decide; [|done]. intros [= ->]. rewrite bool_decide_true; [done|lia].
Qed.

Lemma first_failure_is_Some w fs f :
  f ∈ fs → is_Some (failed_with w f) → is_Some (first_failure w fs).
Proof.
  intros Hin [e He]. induction fs as [|g rest IH]; [by apply elem_of_nil in Hin|].
  cbn. apply elem_of_cons in Hin as [->|Hin].
  - rewrite He. eauto.
  - destruct (failed_with w g); eauto.
Qed.

Lemma first_failure_elem w fs e :
  first_failure w fs = Some e → ∃ f, f ∈ fs ∧ failed_with w f = Some e.
Proof.
  induction fs as [|g rest IH]; cbn; [done|].
  destruct (failed_with w g) as [e'|] eqn:Hg.
  - intros [= ->]. exists g. split; [left|done].
  - intros [f [Hin Hf]]%IH. exists f. split; [by right|done].
Qed.

(** The first failure, read off a split of the list: no handle before [f]
    has failed, and [f] has. *)
Lemma first_failure_split w pre f post e :
  Forall (λ g, failed_with w g = None) pre →
  failed_with w f = Some e →
  first_failure w (pre ++ f :: post) = Some e.
Proof.
  intros Hpre Hf. induction Hpre as [|g pre Hg _ IH]; cbn.
  - by rewrite Hf.
  - by rewrite Hg.
Qed.

Lemma first_failure_unresolved w fs :
  Forall (λ f, resolved w f = false) fs → first_failure w fs = None.
Proof.
  induction 1 as [|f rest Hf _ IH]; cbn; [done|].
  destruct (failed_with w f) as [e|] eqn:He; [|done].
  apply failed_with_resolved in He. congruence.
Qed.

Lemma filter_unresolved w fs :
  Forall (λ f, resolved w f = false) fs →
  List.filter (λ f, negb (succeeded w f)) fs = fs.
Proof.
  induction 1 as [|f rest Hf _ IH]; cbn; [done|].
  destruct (succeeded w f) eqn:Hs; cbn; [|by rewrite IH].
  apply succeeded_resolved in Hs. congruence.
Qed.

Lemma scan_events_exception w fs f :
  EvException f ∈ scan_events w fs → f ∈ fs ∧ resolved w f = true.
Proof.
  induction fs as [|g rest IH]; cbn; [by intros ?%elem_of_nil|].
  destruct (resolved w g) eqn:Hg.
  - intros [?|[Heq|Hin]%elem_of_cons]%elem_of_cons; [done| |].
    + injection Heq as ->. split; [left|done].
    + destruct (failed_with w g); [by apply elem_of_nil in Hin|].
      destruct (IH Hin). split; [by right|done].
  - intros [?|Hin]%elem_of_cons; [done|].
    destruct (IH Hin). split; [by right|done].
Qed.

Lemma filter_not_succeeded_elem w fs f :
  f ∈ List.filter (λ g, negb (succeeded w g)) fs ↔ f ∈ fs ∧ succeeded w f = false.
Proof.
  rewrite !list_elem_of_In, List.filter_In. by rewrite negb_true_iff.
Qed.


(** *** [wait] *)

(** C1.  When every tracked handle eventually resolves successfully,
    [wait()] calls [exception()] on each tracked handle in submission order,
    has waited for each of them when it returns, returns normally and leaves
    [self.futures] empty.  When the handles before [f] resolve successfully
    and [f] resolves with the exception [e], [wait()] raises [e] after having
    waited on the handles up to [f] only, and [self] is as it was. *)
Theorem wait_in_submission_order (p : Proc) :
  (Forall (resolves_successfully (world p)) (futures (self p)) →
   ∃ w',
     wait p = (Returns tt, {| world := w'; self := set_futures [] (self p) |}) ∧
     trace w' = (trace (world p) ++ map EvException (futures (self p)))%list ∧
     Forall (λ f, resolved w' f = true) (futures (self p))) ∧
  (∀ pre f post e,
     futures (self p) = (pre ++ f :: post)%list →
     Forall (resolves_successfully (world p)) pre →
     resolves_with_error (world p) f e →
     ∃ w',
       wait p = (Raises e, {| world := w'; self := self p |}) ∧
       trace w' = (trace (world p) ++ map EvException (pre ++ [f]))%list ∧
       Forall (λ g, resolved w' g = true) (pre ++ [f])).
Proof.
  destruct p as [w u]. cbn [world self]. split.
  - intros Hall. exists (fold_left awaited (futures u) w).
    split; [|split].
    + unfold wait. run.
      rewrite <- (app_nil_r (futures u)) at 1.
      by rewrite wait_loop_app.
    + apply fold_awaited_trace.
    + apply fold_awaited_resolved.
      eapply Forall_impl; [exact Hall|]. intros f [t Hf]. by rewrite Hf.
  - intros pre f post e Hfs Hpre [t Hf].
    exists (fold_left awaited (pre ++ [f]) w).
    split; [|split].
    + unfold wait. run. rewrite Hfs, wait_loop_app by done.
      rewrite (wait_loop_step_error f post _ u t e) by by rewrite fold_awaited_fates.
      by rewrite fold_left_app.
    + apply fold_awaited_trace.
    + apply fold_awaited_resolved, Forall_app. split.
      * eapply Forall_impl; [exact Hpre|]. intros g [t' Hg]. by rewrite Hg.
      * constructor; [by rewrite Hf|constructor].
Qed.

(** A handle that never resolves makes [wait()] block forever on it. *)
Lemma wait_blocks_forever pre f post w u :
  futures u = (pre ++ f :: post)%list →
  Forall (resolves_successfully w) pre →
  fates w !! f = None →
  (wait {| world := w; self := u |}).1 = BlocksForever.
Proof.
  intros Hfs Hpre Hf. unfold wait. run. rewrite Hfs, wait_loop_app by done.
  by rewrite wait_loop_step_never by by rewrite fold_awaited_fates.
Qed.

(** *** [check_workers] *)

(** C2, as amended.  [check_workers()] never blocks (it does not end in
    [BlocksForever] and the clock does not advance) and calls [exception()]
    only on handles that have reached a terminal state.  If a terminal
    handle has failed, the call raises the exception of the first such
    handle in list order and [self] is unchanged; otherwise it returns
    normally and [self.futures] keeps exactly the handles that have not
    succeeded.  When every tracked handle is unresolved it returns normally
    and [self] is unchanged. *)
Theorem check_workers_inspects_terminal_handles (p : Proc) :
  ∃ r p' evs,
    check_workers p = (r, p') ∧
    r ≠ BlocksForever ∧
    now (world p') = now (world p) ∧
    trace (world p') = (trace (world p) ++ evs)%list ∧
    (∀ f, EvException f ∈ evs → f ∈ futures (self p) ∧ resolved (world p) f = true) ∧
    match first_failure (world p) (futures (self p)) with
    | Some e => r = Raises e ∧ self p' = self p
    | None =>
        r = Returns tt ∧
        self p' = set_futures
                    (List.filter (λ f, negb (succeeded (world p) f)) (futures (self p)))
                    (self p)
    end ∧
    (Forall (λ f, resolved (world p) f = false) (futures (self p)) →
     r = Returns tt ∧ self p' = self p).
Proof.
  destruct (check_workers p) as [r p'] eqn:Hrun.
  exists r, p', (scan_events (world p) (futures (self p))).
  rewrite check_workers_run in Hrun. cbn zeta in Hrun.
  split; [done|].
  assert (∀ f, EvException f ∈ scan_events (world p) (futures (self p)) →
               f ∈ futures (self p) ∧ resolved (world p) f = true) as Hexc
    by (intros f Hf; by apply scan_events_exception).
  destruct (first_failure (world p) (futures (self p))) as [e|] eqn:Hfirst;
    injection Hrun as <- <-; cbn; split_and!; try done.
  - intros Hun%first_failure_unresolved. congruence.
  - intros Hun%filter_unresolved. rewrite Hun. by destruct (self p).
Qed.

(** C10.  A [check_workers()] call on a set in which a terminal handle has
    failed raises, and a call that raises leaves [self], hence
    [self.futures], exactly as it was: the handles seen as succeeded before
    the failing one are still tracked. *)
Theorem check_workers_raise_removes_nothing (p : Proc) :
  (∀ f, f ∈ futures (self p) → is_Some (failed_with (world p) f) →
        ∃ e p', check_workers p = (Raises e, p')) ∧
  (∀ e p', check_workers p = (Raises e, p') →
           self p' = self p ∧
           ∀ f, f ∈ futures (self p) → succeeded (world p) f = true →
                f ∈ futures (self p')).
Proof.
  rewrite check_workers_run. cbn zeta. split.
  - intros f Hin Hfail.
    destruct (first_failure_is_Some _ _ _ Hin Hfail) as [e ->]. eauto.
  - intros e p'. destruct (first_failure (world p) (futures (self p))); [|done].
    by intros [= _ <-].
Qed.

(** C3.  Across a [check_workers()] call no handle is added, and a handle
    that was tracked and no longer is had succeeded.  When the call raises
    [e], the tracked handles are the same as before, one of them has failed
    with [e], and calling [check_workers()] again raises [e] again, with the
    tracked handles still the same; at any later time the call raises
    again. *)
Theorem check_workers_keeps_unsucceeded (p : Proc) r p' :
  check_workers p = (r, p') →
  (∀ f, f ∈ futures (self p') → f ∈ futures (self p)) ∧
  (∀ f, f ∈ futures (self p) → f ∉ futures (self p') → succeeded (world p) f = true) ∧
  (∀ e, r = Raises e →
        futures (self p') = futures (self p) ∧
        (∃ f, f ∈ futures (self p') ∧ failed_with (world p) f = Some e) ∧
        (∃ p'', check_workers p' = (Raises e, p'') ∧
                futures (self p'') = futures (self p)) ∧
        (∀ t, now (world p') ≤ t →
              ∃ e' p'', check_workers {| world := set_now t (world p'); self := self p' |}
                        = (Raises e', p'') ∧
                        futures (self p'') = futures (self p))).
Proof.
  rewrite check_workers_run. cbn zeta.
  destruct (first_failure (world p) (futures (self p))) as [e|] eqn:Hfirst;
    intros [= <- <-]; cbn [self world].
  - split; [done|]. split; [done|]. intros ? [= <-].
    destruct (first_failure_elem _ _ _ Hfirst) as [f [Hin Hf]].
    split; [done|]. split; [by exists f|]. split.
    + rewrite check_workers_run. cbn.
      set (w1 := set_trace _ _).
      assert (same_futures w1 (world p)) as Hs by done.
      rewrite (first_failure_same _ _ _ Hs), Hfirst. eauto.
    + intros t Ht. rewrite check_workers_run. cbn.
      set (w1 := set_now _ _).
      destruct (first_failure_is_Some w1 (futures (self p)) f Hin) as [e' ->]; [|by eauto].
      exists e. apply (failed_with_later (world p) f e t Ht) in Hf.
      by rewrite <- Hf.
  - split; [|split; [|done]].
    + intros f. destruct (self p); cbn. by intros [? ?]%filter_not_succeeded_elem.
    + intros f Hin Hout. destruct (succeeded (world p) f) eqn:Hs; [done|].
      destruct Hout. destruct (self p); cbn in *. by apply filter_not_succeeded_elem.
Qed.

End Futures.

(** ** The worker: [_upload_file_to_object_store] *)

Section Worker.
Context `{Collaborators}.

Lemma keeps_files_ret {A} (a : A) : keeps_files (mret a).
Proof. done. Qed.

Lemma keeps_files_raise {A} e : keeps_files (raise e : M World A).
Proof. done. Qed.

Lemma keeps_files_gets {A} (f : World → A) : keeps_files (gets f).
Proof. done. Qed.

Lemma keeps_files_log ev : keeps_files (log ev).
Proof. done. Qed.

Lemma keeps_files_bind {A B} (c : M World A) (k : A → M World B) :
  keeps_files c → (∀ a, keeps_files (k a)) → keeps_files (c ≫= k).
Proof.
  intros Hc Hk w. unfold mbind, M_bind. specialize (Hc w).
  destruct (c w) as [[a|e|] w1]; cbn in *; [|done..].
  by rewrite Hk.
Qed.

Lemma keeps_files_inRemote {A} (c : M Remote A) : keeps_files (inRemote c).
Proof. intros w. unfold inRemote, zoom. by destruct (c (remote w)). Qed.

Lemma keeps_files_try_except {A} (c : M World A) cls h :
  keeps_files c → (∀ e, keeps_files (h e)) → keeps_files (try_except c cls h).
Proof.
  intros Hc Hh w. unfold try_except. specialize (Hc w).
  destruct (c w) as [[a|e|] w1]; cbn in *; [done| |done].
  destruct (isinstance e cls); [|done]. by rewrite Hh.
Qed.

Lemma keeps_files_time_sleep d : keeps_files (time_sleep d).
Proof. intros w. unfold time_sleep. by repeat case_bool_decide. Qed.

Lemma keeps_files_int_environ_get key d : keeps_files (int_environ_get key d).
Proof.
  intros w. unfold int_environ_get. run.
  destruct (environ w !! key) as [s|]; [|done]. by destruct (int_of_str s).
Qed.

Lemma keeps_files_on_object_store {A} o attr (call : ObjectStore → M World A) :
  (∀ store, keeps_files (call store)) → keeps_files (on_object_store o attr call).
Proof. intros Hc. destruct o; [apply Hc|done]. Qed.

Lemma keeps_files_get_object_size o name : keeps_files (ObjectStore_get_object_size o name).
Proof.
  apply keeps_files_bind; [apply keeps_files_log|]. intros _.
  apply keeps_files_on_object_store. intros store. apply keeps_files_inRemote.
Qed.

Lemma keeps_files_upload_object o name filename :
  keeps_files (ObjectStore_upload_object o name filename).
Proof.
  apply keeps_files_bind; [apply keeps_files_log|]. intros _.
  apply keeps_files_on_object_store. intros store.
  apply keeps_files_bind; [apply keeps_files_gets|]. intros fs. apply keeps_files_inRemote.
Qed.

Lemma keeps_files_build_dbfs_backend p : keeps_files (_build_dbfs_backend p).
Proof.
  unfold _build_dbfs_backend. destruct (startswith _ _);
    repeat (apply keeps_files_bind; [apply keeps_files_inRemote|intros _]);
    apply keeps_files_ret.
Qed.

Lemma removes_on_return_os_remove path : removes_on_return path (os_remove path).
Proof.
  intros w. unfold os_remove. run.
  destruct (files w !! path) eqn:Hp; cbn; [|done]. eauto.
Qed.

Lemma removes_on_return_after {A B} path (c : M World A) (k : A → M World B) :
  keeps_files c → (∀ a, removes_on_return path (k a)) → removes_on_return path (c ≫= k).
Proof.
  intros Hc Hk w. unfold mbind, M_bind. specialize (Hc w).
  destruct (c w) as [[a|e|] w1]; cbn in *; [|done..].
  specialize (Hk a w1). destruct (k a w1) as [[b|e|] w2]; by rewrite <- Hc.
Qed.

Lemma removes_on_return_then {A B} path (c : M World A) (k : A → M World B) :
  removes_on_return path c → (∀ a, keeps_files (k a)) →
  (∀ a w, ∃ b, (k a w).1 = Returns b) →
  removes_on_return path (c ≫= k).
Proof.
  intros Hc Hk Hret w. unfold mbind, M_bind. specialize (Hc w).
  destruct (c w) as [[a|e|] w1]; cbn in *; [|done..].
  specialize (Hk a w1). destruct (Hret a w1) as [b Hb].
  destruct (k a w1) as [r w2]; cbn in *; subst. by rewrite Hk.
Qed.

Lemma removes_on_return_upload_file_body o name path overwrite i :
  removes_on_return path (upload_file_body o name path overwrite i).
Proof.
  unfold upload_file_body.
  apply removes_on_return_after.
  { destruct (_ && _); [|apply keeps_files_ret].
    apply keeps_files_bind.
    - apply keeps_files_try_except; [|intros; apply keeps_files_ret].
      apply keeps_files_bind; [apply keeps_files_get_object_size|].
      intros; apply keeps_files_ret.
    - intros []; [apply keeps_files_raise|apply keeps_files_ret]. }
  intros _. apply removes_on_return_after; [apply keeps_files_upload_object|].
  intros _. apply removes_on_return_os_remove.
Qed.

Lemma removes_on_return_retry_attempts {A} path cls (func : Z → M World A) spare :
  (∀ i, removes_on_return path (func i)) →
  ∀ i, removes_on_return path (retry_attempts cls func spare i).
Proof.
  intros Hf. induction spare as [|spare IH]; intros i w; cbn.
  - specialize (Hf (if retry_passes_index then i else 0) w).
    destruct (func _ w) as [[a|e|] w1]; [done| |done]. by destruct (isinstance e cls).
  - specialize (Hf (if retry_passes_index then i else 0) w).
    destruct (func _ w) as [[a|e|] w1]; [done| |done].
    destruct (isinstance e cls); [|done]. run.
    set (w2 := set_now _ _).
    specialize (IH (i + 1) w2).
    destruct (retry_attempts cls func spare (i + 1) w2) as [[a|e'|] w3];
      cbn in *; by rewrite <- Hf.
Qed.

(** C5.  When the worker returns, the staged file existed and the local
    files afterwards are the ones before without it; when the worker raises
    (or blocks), the local files are exactly the ones before: the staged
    copy is still there and no other file was touched either way. *)
Theorem staged_copy_removed_on_success remote_folder is_dbfs dbfs_path name path overwrite n w :
  match _upload_file_to_object_store remote_folder is_dbfs dbfs_path name path overwrite n w with
  | (Returns _, w') => files w' = delete path (files w) ∧ is_Some (files w !! path)
  | (_, w') => files w' = files w
  end.
Proof.
  revert w. fold (removes_on_return path
    (_upload_file_to_object_store remote_folder is_dbfs dbfs_path name path overwrite n)).
  unfold _upload_file_to_object_store.
  apply removes_on_return_after.
  { destruct is_dbfs; [|apply keeps_files_inRemote].
    apply keeps_files_bind; [apply keeps_files_build_dbfs_backend|].
    intros; apply keeps_files_ret. }
  intros o. apply removes_on_return_after; [apply keeps_files_gets|].
  intros rank. apply removes_on_return_after; [apply keeps_files_int_environ_get|].
  intros stagger. apply removes_on_return_after; [apply keeps_files_time_sleep|].
  intros _. apply removes_on_return_then.
  - apply removes_on_return_retry_attempts. intros i.
    apply removes_on_return_upload_file_body.
  - intros; apply keeps_files_ret.
  - intros. by eexists.
Qed.

Lemma set_remote_same (w : World) : set_remote (remote w) w = w.
Proof. by destruct w. Qed.

Lemma only_remote_ret {A} (a : A) : only_remote (mret a).
Proof. intros w. exists (remote w). by rewrite set_remote_same. Qed.

Lemma only_remote_inRemote {A} (c : M Remote A) : only_remote (inRemote c).
Proof. intros w. unfold inRemote, zoom. destruct (c (remote w)) as [r r']. by exists r'. Qed.

Lemma only_remote_bind {A B} (c : M World A) (k : A → M World B) :
  only_remote c → (∀ a, only_remote (k a)) → only_remote (c ≫= k).
Proof.
  intros Hc Hk w. unfold mbind, M_bind. destruct (Hc w) as [r1 Hr1].
  destruct (c w) as [[a|e|] w1]; cbn in *; subst; [|by eexists..].
  destruct (Hk a (set_remote r1 w)) as [r2 ->]. by exists r2.
Qed.

Lemma only_remote_build_dbfs_backend p : only_remote (_build_dbfs_backend p).
Proof.
  unfold _build_dbfs_backend. destruct (startswith _ _);
    repeat (apply only_remote_bind; [apply only_remote_inRemote|intros _]);
    apply only_remote_ret.
Qed.

Lemma emits_nothing {A} P (c : M World A) : (∀ w, trace (c w).2 = trace w) → emits P c.
Proof. intros Hc w. exists []. by rewrite Hc, app_nil_r. Qed.

Lemma emits_ret {A} P (a : A) : emits P (mret a).
Proof. by apply emits_nothing. Qed.

Lemma emits_raise {A} P e : emits P (raise e : M World A).
Proof. by apply emits_nothing. Qed.

Lemma emits_gets {A} P (f : World → A) : emits P (gets f).
Proof. by apply emits_nothing. Qed.

Lemma emits_inRemote {A} P (c : M Remote A) : emits P (inRemote c).
Proof.
  apply emits_nothing. intros w. unfold inRemote, zoom. by destruct (c (remote w)).
Qed.

Lemma emits_log (P : Event → Prop) ev : P ev → emits P (log ev).
Proof. intros Hev w. exists [ev]. split; [done|by constructor]. Qed.

Lemma emits_bind {A B} P (c : M World A) (k : A → M World B) :
  emits P c → (∀ a, emits P (k a)) → emits P (c ≫= k).
Proof.
  intros Hc Hk w. unfold mbind, M_bind. destruct (Hc w) as [evs [Ht Hevs]].
  destruct (c w) as [[a|e|] w1]; cbn in *; [|by eauto..].
  destruct (Hk a w1) as [evs' [Ht' Hevs']].
  exists (evs ++ evs')%list. split; [by rewrite Ht', Ht, app_assoc|by apply Forall_app].
Qed.

Lemma emits_try_except {A} P (c : M World A) cls h :
  emits P c → (∀ e, emits P (h e)) → emits P (try_except c cls h).
Proof.
  intros Hc Hh w. unfold try_except. destruct (Hc w) as [evs [Ht Hevs]].
  destruct (c w) as [[a|e|] w1]; cbn in *; [by eauto| |by eauto].
  destruct (isinstance e cls); [|by eauto].
  destruct (Hh e w1) as [evs' [Ht' Hevs']].
  exists (evs ++ evs')%list. split; [by rewrite Ht', Ht, app_assoc|by apply Forall_app].
Qed.

Lemma emits_on_object_store {A} P o attr (call : ObjectStore → M World A) :
  (∀ store, emits P (call store)) → emits P (on_object_store o attr call).
Proof. intros Hc. destruct o; [apply Hc|apply emits_raise]. Qed.

Lemma emits_os_remove (P : Event → Prop) path : P (EvRemove path) → emits P (os_remove path).
Proof.
  intros HP. apply emits_bind; [by apply emits_log|]. intros _.
  apply emits_bind; [apply emits_gets|]. intros fs.
  destruct (fs !! path); [by apply emits_nothing|apply emits_raise].
Qed.

Lemma emits_upload_file_body (P : Event → Prop) o name path overwrite i :
  (∀ ev, is_upload_event ev = true → P ev) →
  emits P (upload_file_body o name path overwrite i).
Proof.
  intros HP. unfold upload_file_body.
  apply emits_bind.
  { destruct (_ && _); [|apply emits_ret].
    apply emits_bind.
    - apply emits_try_except; [|intros; apply emits_ret].
      apply emits_bind; [|intros; apply emits_ret].
      apply emits_bind; [by apply emits_log, HP|]. intros _.
      apply emits_on_object_store. intros store. apply emits_inRemote.
    - intros []; [apply emits_raise|apply emits_ret]. }
  intros _. apply emits_bind.
  { apply emits_bind; [by apply emits_log, HP|]. intros _.
    apply emits_on_object_store. intros store.
    apply emits_bind; [apply emits_gets|]. intros fs. apply emits_inRemote. }
  intros _. by apply emits_os_remove, HP.
Qed.

Lemma emits_retry_attempts {A} (P : Event → Prop) cls (func : Z → M World A) spare :
  (∀ i, emits P (func i)) → (∀ i, P (EvBackoff i)) →
  ∀ i, emits P (retry_attempts cls func spare i).
Proof.
  intros Hf HP. induction spare as [|spare IH]; intros i w; cbn.
  - destruct (Hf (if retry_passes_index then i else 0) w) as [evs [Ht Hevs]].
    destruct (func _ w) as [[a|e|] w1]; [by eauto| |by eauto].
    destruct (isinstance e cls); by eauto.
  - destruct (Hf (if retry_passes_index then i else 0) w) as [evs [Ht Hevs]].
    destruct (func _ w) as [[a|e|] w1]; [by eauto| |by eauto].
    destruct (isinstance e cls); [|by eauto]. run.
    set (w2 := set_now _ _).
    destruct (IH (i + 1) w2) as [evs' [Ht' Hevs']].
    destruct (retry_attempts cls func spare (i + 1) w2) as [r w3]. cbn in *.
    exists (evs ++ EvBackoff i :: evs')%list. split.
    + rewrite Ht', Ht. by rewrite <- !app_assoc.
    + apply Forall_app. split; [done|]. by constructor.
Qed.

Lemma emits_upload_file (P : Event → Prop) n o name path overwrite :
  (∀ ev, is_upload_event ev = true → P ev) →
  emits P (upload_file n o name path overwrite).
Proof.
  intros HP. apply emits_retry_attempts.
  - intros i. by apply emits_upload_file_body.
  - intros i. by apply HP.
Qed.

Lemma int_environ_get_stagger w :
  int_environ_get "COMPOSER_LOCAL_RANK_STAGGER_SECONDS" 0 w =
    (match stagger_seconds w with
     | Some s => Returns s
     | None =>
         Raises (Exn ValueError
                   ("invalid literal for int() with base 10: " ++
                    default "" (environ w !! "COMPOSER_LOCAL_RANK_STAGGER_SECONDS")))
     end, w).
Proof.
  unfold int_environ_get, stagger_seconds. run.
  destruct (environ w !! _) as [s|]; [|done]. cbn. by destruct (int_of_str s).
Qed.

(** Once the backend object is built, the rest of the task runs in the
    world that the construction left. *)
Lemma worker_after_build remote_folder is_dbfs dbfs_path name path overwrite n w o w1 :
  worker_object_store remote_folder is_dbfs dbfs_path w = (Returns o, w1) →
  _upload_file_to_object_store remote_folder is_dbfs dbfs_path name path overwrite n w
  = (stagger ← int_environ_get "COMPOSER_LOCAL_RANK_STAGGER_SECONDS" 0;
     time_sleep (local_rank w1 * stagger);;
     upload_file n o name path overwrite;;
     mret 0) w1.
Proof.
  intros Hbuild. unfold _upload_file_to_object_store, worker_object_store in *.
  unfold mbind at 1. unfold M_bind at 1. by rewrite Hbuild.
Qed.

(** A delay in the range of [time.sleep] is slept, and nothing else happens
    before [upload_file()] is called. *)
Lemma worker_sleeps remote_folder is_dbfs dbfs_path name path overwrite n w o w1 s :
  worker_object_store remote_folder is_dbfs dbfs_path w = (Returns o, w1) →
  stagger_seconds w1 = Some s →
  0 ≤ local_rank w1 * s ≤ SLEEP_SECONDS_MAX →
  _upload_file_to_object_store remote_folder is_dbfs dbfs_path name path overwrite n w
  = (upload_file n o name path overwrite;; mret 0) (slept (local_rank w1 * s) w1).
Proof.
  intros Hbuild Hs Hd. rewrite (worker_after_build _ _ _ _ _ _ _ _ _ _ Hbuild).
  unfold mbind at 1. unfold M_bind at 1. rewrite int_environ_get_stagger, Hs.
  unfold mbind at 1. unfold M_bind at 1. unfold time_sleep.
  rewrite bool_decide_false by lia. rewrite bool_decide_false by lia. done.
Qed.

(** A delay outside the range of [time.sleep] ends the task with the error
    of [time.sleep], in the world that the construction left. *)
Lemma worker_rejects_delay remote_folder is_dbfs dbfs_path name path overwrite n w o w1 s :
  worker_object_store remote_folder is_dbfs dbfs_path w = (Returns o, w1) →
  stagger_seconds w1 = Some s →
  ¬ 0 ≤ local_rank w1 * s ≤ SLEEP_SECONDS_MAX →
  _upload_file_to_object_store remote_folder is_dbfs dbfs_path name path overwrite n w
  = (Raises
       (if bool_decide (0 ≤ local_rank w1 * s) then
          Exn (OtherError "OverflowError") "timestamp too large to convert to C _PyTime_t"
        else if bool_decide (- SLEEP_SECONDS_MAX ≤ local_rank w1 * s) then
          Exn ValueError "sleep length must be non-negative"
        else
          Exn (OtherError "OverflowError") "timestamp too large to convert to C _PyTime_t"),
     w1).
Proof.
  intros Hbuild Hs Hd. rewrite (worker_after_build _ _ _ _ _ _ _ _ _ _ Hbuild).
  unfold mbind at 1. unfold M_bind at 1. rewrite int_environ_get_stagger, Hs.
  unfold mbind at 1. unfold M_bind at 1. unfold time_sleep.
  repeat case_bool_decide; try done; lia.
Qed.

(** The worker either stops before it sleeps, having acted on the remote
    side only, or sleeps [local_rank * stagger] seconds and then calls
    [upload_file()]. *)
Lemma worker_phases remote_folder is_dbfs dbfs_path name path overwrite n w :
  let run := _upload_file_to_object_store remote_folder is_dbfs dbfs_path name path
               overwrite n in
  (∃ r, (run w).2 = set_remote r w ∧ ∀ z, (run w).1 ≠ Returns z) ∨
  (∃ r o s,
     stagger_seconds w = Some s ∧
     0 ≤ local_rank w * s ≤ SLEEP_SECONDS_MAX ∧
     run w = (upload_file n o name path overwrite;; mret 0)
               (staggered r (local_rank w * s) w)).
Proof.
  cbn zeta.
  destruct (_upload_file_to_object_store _ _ _ _ _ _ _ w) as [res w'] eqn:Hrun.
  unfold _upload_file_to_object_store in Hrun.
  set (build := if is_dbfs then _ else _) in Hrun.
  assert (only_remote build) as Hbuild.
  { subst build. destruct is_dbfs; [|apply only_remote_inRemote].
    apply only_remote_bind; [apply only_remote_build_dbfs_backend|].
    intros; apply only_remote_ret. }
  unfold mbind at 1 in Hrun. unfold M_bind at 1 in Hrun.
  destruct (Hbuild w) as [r1 Hr1].
  destruct (build w) as [[o|e|] w1]; cbn in Hr1; subst w1;
    [|injection Hrun as <- <-; left; by exists r1..].
  unfold mbind at 1 in Hrun. unfold M_bind at 1 in Hrun. unfold gets at 1 in Hrun.
  unfold mbind at 1 in Hrun. unfold M_bind at 1 in Hrun.
  rewrite int_environ_get_stagger in Hrun.
  change (stagger_seconds (set_remote r1 w)) with (stagger_seconds w) in Hrun.
  change (local_rank (set_remote r1 w)) with (local_rank w) in Hrun.
  destruct (stagger_seconds w) as [s|] eqn:Hs;
    [|injection Hrun as <- <-; left; by exists r1].
  unfold mbind at 1 in Hrun. unfold M_bind at 1 in Hrun. unfold time_sleep in Hrun.
  case_bool_decide as Hover; [injection Hrun as <- <-; left; by exists r1|].
  case_bool_decide as Hneg; [injection Hrun as <- <-; left; by exists r1|].
  right. exists r1, o, s. split_and!; [done|lia|lia|done].
Qed.

(** C9.  Let the task have built its backend object [o], leaving the world
    [w1], and let [int()] read the stagger [s] from the environment there
    (0 when the variable is unset).  Then:
    - when [local_rank * s] is a length that [time.sleep] accepts (from 0 to
      [SLEEP_SECONDS_MAX]), the task is [upload_file()] followed by
      [return 0], started in [w1] after a sleep of exactly
      [local_rank * s] seconds: the sleep is logged, the clock has moved by
      that much, and nothing else has happened;
    - otherwise [time.sleep] raises, and the task ends with that error in
      [w1]: it has not slept and no upload has begun;
    - on local rank 0 the length is 0 whatever [s] is, and the upload starts
      with the clock where it was.
    For every run, whatever its outcome: either it logs no event at all, and
    then it does not return, or its events start with the sleep of
    [local_rank * stagger] seconds, a length in range, and no later event is
    a sleep; on local rank 0 every sleep of the run has length 0. *)
Theorem stagger_before_upload remote_folder is_dbfs dbfs_path name path overwrite n w :
  let run := _upload_file_to_object_store remote_folder is_dbfs dbfs_path name path
               overwrite n in
  (∀ o w1 s,
     worker_object_store remote_folder is_dbfs dbfs_path w = (Returns o, w1) →
     stagger_seconds w1 = Some s →
     0 ≤ local_rank w1 * s ≤ SLEEP_SECONDS_MAX →
     run w = (upload_file n o name path overwrite;; mret 0)
               (slept (local_rank w1 * s) w1)) ∧
  (∀ o w1 s,
     worker_object_store remote_folder is_dbfs dbfs_path w = (Returns o, w1) →
     stagger_seconds w1 = Some s →
     ¬ 0 ≤ local_rank w1 * s ≤ SLEEP_SECONDS_MAX →
     ∃ e, run w = (Raises e, w1) ∧
          exn_cls e = if bool_decide (- SLEEP_SECONDS_MAX ≤ local_rank w1 * s < 0)
                      then ValueError else OtherError "OverflowError") ∧
  (∀ o w1 s,
     worker_object_store remote_folder is_dbfs dbfs_path w = (Returns o, w1) →
     stagger_seconds w1 = Some s →
     local_rank w1 = 0 →
     run w = (upload_file n o name path overwrite;; mret 0) (slept 0 w1) ∧
     now (slept 0 w1) = now w1) ∧
  ∃ evs,
    trace (run w).2 = (trace w ++ evs)%list ∧
    ((evs = [] ∧ ∀ z, (run w).1 ≠ Returns z) ∨
     ∃ s rest,
       stagger_seconds w = Some s ∧
       0 ≤ local_rank w * s ≤ SLEEP_SECONDS_MAX ∧
       evs = EvSleep (local_rank w * s) :: rest ∧
       Forall (λ ev, is_sleep ev = false) rest) ∧
    (local_rank w = 0 → ∀ d, EvSleep d ∈ evs → d = 0).
Proof.
  cbn zeta. split_and!.
  - intros o w1 s. apply worker_sleeps.
  - intros o w1 s Hbuild Hs Hd.
    rewrite (worker_rejects_delay _ _ _ name path overwrite n _ _ _ _ Hbuild Hs Hd).
    eexists. split; [done|]. repeat case_bool_decide; try done; lia.
  - intros o w1 s Hbuild Hs Hrank.
    rewrite (worker_sleeps _ _ _ name path overwrite n _ _ _ _ Hbuild Hs)
      by (rewrite Hrank; unfold SLEEP_SECONDS_MAX; lia).
    rewrite Hrank. cbn. split; [done|lia].
  - assert (∃ evs,
      trace (_upload_file_to_object_store remote_folder is_dbfs dbfs_path name path
               overwrite n w).2 = (trace w ++ evs)%list ∧
      ((evs = [] ∧
        ∀ z, (_upload_file_to_object_store remote_folder is_dbfs dbfs_path name path
                overwrite n w).1 ≠ Returns z) ∨
       ∃ s rest,
         stagger_seconds w = Some s ∧
         0 ≤ local_rank w * s ≤ SLEEP_SECONDS_MAX ∧
         evs = EvSleep (local_rank w * s) :: rest ∧
         Forall (λ ev, is_sleep ev = false) rest)) as [evs [Ht Hevs]].
    { destruct (worker_phases remote_folder is_dbfs dbfs_path name path overwrite n w)
        as [[r [Hw Hr]]|[r [o [s [Hs [Hd ->]]]]]].
      - exists []. rewrite app_nil_r, Hw. by eauto.
      - assert (emits (λ ev, is_sleep ev = false)
                  (upload_file n o name path overwrite;; mret 0)) as Hup.
        { apply emits_bind; [|intros; apply emits_ret].
          apply emits_upload_file. by intros []. }
        destruct (Hup (staggered r (local_rank w * s) w)) as [rest [-> Hrest]].
        exists (EvSleep (local_rank w * s) :: rest). cbn. rewrite <- app_assoc.
        split; [done|]. right. by exists s, rest. }
    exists evs. split_and!; [done..|].
    intros Hrank d Hd. destruct Hevs as [[-> _]|[s [rest [_ [_ [-> Hrest]]]]]].
    + by apply elem_of_nil in Hd.
    + apply elem_of_cons in Hd as [[= ->]|Hd]; [by rewrite Hrank|].
      rewrite Forall_forall in Hrest. by apply Hrest in Hd.
Qed.

(** The first attempt of the retry policy runs with index 0, and an outcome
    other than an error of the retried class ends the policy at once. *)
Lemma retry_first_attempt {St} `{HasWorld St} {A} cls n (func : Z → M St A) s :
  match func 0 s with
  | (Raises e, s') =>
      isinstance e cls = false → retry cls n func s = (Raises e, s')
  | (r, s') => retry cls n func s = (r, s')
  end.
Proof.
  unfold retry. destruct (Z.to_nat (n - 1)); cbn;
    replace (if retry_passes_index then 0 else 0) with 0 by (by destruct retry_passes_index);
    destruct (func 0 s) as [[a|e|] s']; try done; by intros ->.
Qed.

Lemma retry_extends_first_attempt {A} cls n (func : Z → M World A) w :
  (∀ i, emits (λ _, True) (func i)) →
  ∃ evs, trace (retry cls n func w).2 = (trace (func 0 w).2 ++ evs)%list.
Proof.
  intros Hf. unfold retry. destruct (Z.to_nat (n - 1)) as [|spare]; cbn;
    replace (if retry_passes_index then 0 else 0) with 0 by (by destruct retry_passes_index);
    destruct (func 0 w) as [[a|e|] w1]; cbn; try (exists []; by rewrite app_nil_r);
    destruct (isinstance e cls); try (exists []; by rewrite app_nil_r).
  run. set (w2 := set_now _ _).
  destruct (emits_retry_attempts (λ _, True) cls func spare Hf ltac:(done) (0 + 1) w2)
    as [evs [Ht _]].
  exists (EvBackoff 0 :: evs). rewrite Ht. subst w2. cbn. by rewrite <- app_assoc.
Qed.

Lemma upload_file_body_not_found store name path w e :
  (get_object_size store name (remote w)).1 = Raises e →
  isinstance e FileNotFoundError = true →
  upload_file_body (Some store) name path false 0 w =
    (ObjectStore_upload_object (Some store) name path;; os_remove path) (probed store name w).
Proof.
  intros Hprobe Hcls. unfold upload_file_body, probed.
  unfold mbind at 1. unfold M_bind at 1. cbn [bool_decide decide_rel andb negb].
  replace (bool_decide (0 = 0)) with true by done. cbn [andb].
  unfold mbind at 1. unfold M_bind at 1. unfold try_except, ObjectStore_get_object_size.
  run. unfold inRemote, zoom. cbn.
  destruct (get_object_size store name (remote w)) as [r r']. cbn in *. subst r.
  by rewrite Hcls.
Qed.

Lemma upload_file_body_exists store name path w size :
  (get_object_size store name (remote w)).1 = Returns size →
  upload_file_body (Some store) name path false 0 w =
    (Raises (Exn FileExistsError
               ("Object " ++ name ++ " already exists, but overwrite was set to False.")),
     probed store name w).
Proof.
  intros Hprobe. unfold upload_file_body, probed.
  unfold mbind at 1. unfold M_bind at 1.
  replace (bool_decide (0 = 0)) with true by done. cbn [andb negb].
  unfold mbind at 1. unfold M_bind at 1. unfold try_except, ObjectStore_get_object_size.
  run. unfold inRemote, zoom. cbn.
  destruct (get_object_size store name (remote w)) as [r r']. cbn in *. by subst r.
Qed.

Lemma upload_file_body_probes_first o name path w :
  ∃ rest,
    trace (upload_file_body o name path false 0 w).2
      = (trace w ++ EvGetObjectSize name :: rest)%list.
Proof.
  unfold upload_file_body.
  replace (bool_decide (0 = 0)) with true by done. cbn [andb negb].
  set (k := λ _ : unit, _).
  assert (∀ a, emits (λ _, True) (k a)) as Hk.
  { intros a. subst k. cbn.
    apply emits_bind; [|intros; by apply emits_os_remove].
    apply emits_bind; [by apply emits_log|]. intros _.
    apply emits_on_object_store. intros store.
    apply emits_bind; [apply emits_gets|]. intros fs. apply emits_inRemote. }
  unfold mbind at 1. unfold M_bind at 1.
  unfold mbind at 1. unfold M_bind at 1. unfold try_except, ObjectStore_get_object_size.
  run. set (w1 := set_trace _ w).
  assert (∃ r r', on_object_store o "get_object_size"
                    (λ store, inRemote (get_object_size store name)) w1
                  = (r, set_remote r' w1)) as [r [r' ->]].
  { destruct o as [store|]; cbn.
    - unfold inRemote, zoom. destruct (get_object_size store name (remote w1)); eauto.
    - exists (Raises (Exn AttributeError
                ("'NoneType' object has no attribute '" ++ "get_object_size" ++ "'"))),
        (remote w1).
      by rewrite set_remote_same. }
  destruct r as [size|e|]; cbn; [by eauto| |by eauto].
  destruct (isinstance e FileNotFoundError); cbn; [|by eauto].
  destruct (Hk tt (set_remote r' w1)) as [evs [Ht _]].
  destruct (k tt (set_remote r' w1)) as [[]w2]; cbn in *.
  all: exists evs; by rewrite Ht, <- app_assoc.
Qed.

Lemma upload_then_remove_trace o name path w :
  ∃ rest,
    trace ((ObjectStore_upload_object o name path;; os_remove path) w).2
      = (trace w ++ EvUploadObject name path :: rest)%list.
Proof.
  unfold ObjectStore_upload_object.
  unfold mbind at 1. unfold M_bind at 1. unfold mbind at 1. unfold M_bind at 1.
  unfold log at 1. unfold modify at 1.
  set (w1 := set_trace _ w).
  set (up := on_object_store _ _ _).
  assert (emits (λ _, True) up) as Hup.
  { apply emits_on_object_store. intros store.
    apply emits_bind; [apply emits_gets|]. intros fs. apply emits_inRemote. }
  destruct (Hup w1) as [evs [Ht _]].
  destruct (up w1) as [[[]|e|] w2]; cbn in *; try (exists evs; by rewrite Ht, <- app_assoc).
  destruct (emits_os_remove (λ _, True) path I w2) as [evs' [Ht' _]].
  exists (evs ++ evs')%list. rewrite Ht', Ht. by rewrite <- !app_assoc.
Qed.

Lemma upload_file_probes_first n o name path w :
  ∃ rest,
    trace (upload_file n o name path false w).2
      = (trace w ++ EvGetObjectSize name :: rest)%list.
Proof.
  destruct (retry_extends_first_attempt ObjectStoreTransientError n
              (upload_file_body o name path false) w) as [evs Ht].
  { intros; by apply emits_upload_file_body. }
  destruct (upload_file_body_probes_first o name path w) as [rest Hrest].
  exists (rest ++ evs)%list. unfold upload_file. rewrite Ht, Hrest.
  by rewrite <- app_assoc.
Qed.


End Worker.

(** ** The uploader: construction, [init], submission after closing *)

Section Uploader.
Context `{Collaborators}.

Lemma keeps_bounds_ret {A} (a : A) : keeps_bounds (mret a).
Proof. done. Qed.

Lemma keeps_bounds_raise {A} e : keeps_bounds (raise e : M Proc A).
Proof. done. Qed.

Lemma keeps_bounds_gets {A} (f : Proc → A) : keeps_bounds (gets f).
Proof. done. Qed.

Lemma keeps_bounds_inW {A} (c : M World A) : keeps_bounds (inW c).
Proof. intros p. unfold inW, zoom. cbn. by destruct (c (world p)). Qed.

Lemma keeps_bounds_set_self (f : RemoteUploader → RemoteUploader) :
  (∀ u, bounds (f u) = bounds u) → keeps_bounds (set_self f).
Proof. intros Hf p. apply Hf. Qed.

Lemma keeps_bounds_bind {A B} (c : M Proc A) (k : A → M Proc B) :
  keeps_bounds c → (∀ a, keeps_bounds (k a)) → keeps_bounds (c ≫= k).
Proof.
  intros Hc Hk p. unfold mbind, M_bind. specialize (Hc p).
  destruct (c p) as [[a|e|] p1]; cbn in *; [|done..].
  by rewrite Hk.
Qed.

Lemma keeps_bounds_retry_attempts {A} cls (func : Z → M Proc A) spare :
  (∀ i, keeps_bounds (func i)) → ∀ i, keeps_bounds (retry_attempts cls func spare i).
Proof.
  intros Hf. induction spare as [|spare IH]; intros i p; cbn.
  - specialize (Hf (if retry_passes_index then i else 0) p).
    destruct (func _ p) as [[a|e|] p1]; [done| |done]. by destruct (isinstance e cls).
  - specialize (Hf (if retry_passes_index then i else 0) p).
    destruct (func _ p) as [[a|e|] p1]; [done| |done].
    destruct (isinstance e cls); [|done]. run.
    set (p2 := {| world := _; self := self p1 |}).
    by rewrite (IH (i + 1) p2).
Qed.

Ltac bounds_leaf :=
  first
    [ apply keeps_bounds_ret
    | apply keeps_bounds_raise
    | apply keeps_bounds_inW
    | apply keeps_bounds_gets
    | apply keeps_bounds_set_self; by intros [] ].

Ltac bounds_auto :=
  repeat first [bounds_leaf | apply keeps_bounds_bind; [|intros ?]].

Tactic Notation "bounds_bind" ident(x) :=
  apply keeps_bounds_bind; [try bounds_leaf|intros x; try bounds_leaf].

Lemma keeps_bounds_build_if_none build : keeps_bounds (build_if_none build).
Proof.
  unfold build_if_none, get_self. bounds_bind o.
  destruct o; [done|]. bounds_bind store.
Qed.

Lemma keeps_bounds_init_backend : keeps_bounds init_backend.
Proof.
  unfold init_backend, get_self.
  bounds_bind is_dbfs. destruct (negb is_dbfs).
  { bounds_bind folder. bounds_bind u. apply keeps_bounds_build_if_none. }
  bounds_bind p. destruct (negb _).
  { bounds_bind u. apply keeps_bounds_build_if_none. }
  bounds_bind rank. bounds_bind u.
  { case_bool_decide; [|bounds_leaf].
    bounds_bind u; [apply keeps_bounds_build_if_none|].
    bounds_bind o. destruct o as [[]|]; try bounds_leaf.
    bounds_bind resolved. }
  bounds_bind p'. bounds_bind path_list.
  destruct path_list as [|p0 ?]; [bounds_leaf|].
  bounds_bind u'. case_bool_decide; [|bounds_leaf].
  bounds_bind store.
Qed.

Lemma keeps_bounds_init : keeps_bounds init.
Proof.
  unfold init. bounds_bind returned; [apply keeps_bounds_init_backend|].
  destruct returned; [bounds_leaf|]. bounds_bind rank.
  case_bool_decide; [|bounds_leaf].
  unfold get_self. bounds_bind attempts.
  apply keeps_bounds_retry_attempts. intros _.
  unfold validate_probe, get_self. bounds_auto.
Qed.

Lemma keeps_bounds_executor_submit call : keeps_bounds (executor_submit call).
Proof.
  intros [w u]. unfold executor_submit. run. by destruct (_shutdown_thread (executor u)).
Qed.

Lemma keeps_bounds_executor_shutdown : keeps_bounds executor_shutdown.
Proof.
  intros [w u]. unfold executor_shutdown. run.
  by destruct (join_all _ _) as [[[]|e|] w1].
Qed.

Lemma keeps_bounds_upload_file_async name file overwrite :
  keeps_bounds (upload_file_async name file overwrite).
Proof.
  unfold upload_file_async, get_self.
  bounds_bind staging. bounds_bind uuid. bounds_bind u. bounds_bind me.
  bounds_bind future; [apply keeps_bounds_executor_submit|].
  bounds_auto.
Qed.

Lemma keeps_bounds_check_workers_scan fs : ∀ acc, keeps_bounds (check_workers_scan fs acc).
Proof.
  induction fs as [|f rest IH]; intros acc; cbn; [bounds_leaf|].
  bounds_bind is_done. destruct is_done; [|apply IH].
  bounds_bind e. destruct e; [bounds_leaf|apply IH].
Qed.

Lemma keeps_bounds_check_workers_remove fs : keeps_bounds (check_workers_remove fs).
Proof.
  induction fs as [|f rest IH]; cbn; [bounds_leaf|].
  unfold get_self. bounds_bind fs.
  destruct (list_remove f fs); [|bounds_leaf].
  bounds_bind u. apply IH.
Qed.

Lemma keeps_bounds_check_workers : keeps_bounds check_workers.
Proof.
  unfold check_workers, get_self. bounds_bind fs.
  bounds_bind done_futures;
    [apply keeps_bounds_check_workers_scan|apply keeps_bounds_check_workers_remove].
Qed.

Lemma keeps_bounds_wait_loop fs : keeps_bounds (wait_loop fs).
Proof.
  induction fs as [|f rest IH]; cbn; [bounds_leaf|].
  bounds_bind e. destruct e; [bounds_leaf|apply IH].
Qed.

Lemma keeps_bounds_wait : keeps_bounds wait.
Proof.
  unfold wait, get_self. bounds_bind fs. bounds_bind u. apply keeps_bounds_wait_loop.
Qed.

Lemma keeps_bounds_call_method c : keeps_bounds (call_method c).
Proof.
  destruct c; cbn.
  - apply keeps_bounds_init.
  - bounds_bind future. apply keeps_bounds_upload_file_async.
  - apply keeps_bounds_check_workers.
  - apply keeps_bounds_wait.
  - unfold wait_and_close. bounds_bind u;
      [apply keeps_bounds_wait|apply keeps_bounds_executor_shutdown].
Qed.

Lemma call_methods_bounds cs : ∀ p, bounds (self (call_methods cs p)) = bounds (self p).
Proof.
  induction cs as [|c rest IH]; intros p; cbn; [done|].
  pose proof (keeps_bounds_call_method c p) as Hc.
  destruct (call_method c p) as [[[]|e|] p1]; cbn in *; by rewrite ?IH.
Qed.


(** *** Submission after [wait_and_close] *)

Lemma wait_and_close_closes p0 p :
  wait_and_close p0 = (Returns tt, p) →
  _shutdown_thread (executor (self p)) = true ∧ futures (self p) = [].
Proof.
  destruct p0 as [w u]. unfold wait_and_close, wait, executor_shutdown. run.
  destruct (wait_loop (futures u) _) as [[[]|e|] [w1 u1]]; [|done..]. cbn.
  destruct (join_all _ _) as [[[]|e|] w2]; [|done..].
  by intros [= <-].
Qed.

(** C7, as amended.  Once [wait_and_close()] has returned,
    [upload_file_async] leaves [self] as it is (no future is tracked, none
    is submitted) and logs the copy only; when the source file exists the
    call raises the [RuntimeError] of the shut-down pool and the staging
    area holds a new copy of the file; when it does not, the copy raises
    [FileNotFoundError] and the local files are unchanged. *)
Theorem upload_after_close_stages_then_raises p0 p name file overwrite :
  wait_and_close p0 = (Returns tt, p) →
  let staged := os_path_join (_upload_staging_folder (self p))
                  (uuids (world p) (uuids_drawn (world p))) in
  futures (self p) = [] ∧
  ∃ w',
    (upload_file_async name file overwrite p).2 = {| world := w'; self := self p |} ∧
    trace w' = (trace (world p) ++ [EvCopy file staged])%list ∧
    match files (world p) !! file with
    | Some content =>
        (upload_file_async name file overwrite p).1
          = Raises (Exn RuntimeError "cannot schedule new futures after shutdown") ∧
        files w' = <[staged := content]> (files (world p))
    | None =>
        (upload_file_async name file overwrite p).1
          = Raises (Exn FileNotFoundError ("No such file or directory: " ++ file)) ∧
        files w' = files (world p)
    end.
Proof.
  intros [Hshut Hfs]%wait_and_close_closes. cbn zeta. split; [done|].
  destruct p as [w u]. cbn in *.
  unfold upload_file_async, uuid4, shutil_copy2, executor_submit. run.
  destruct (files w !! file) as [content|] eqn:Hfile; cbn.
  - rewrite Hshut. cbn. eexists. by split_and!.
  - eexists. by split_and!.
Qed.

(** *** [init] *)

Lemma untouched (w : World) : w = set_remote (remote w) (set_trace (trace w ++ [])%list w).
Proof. destruct w. cbn. by rewrite app_nil_r. Qed.

Lemma touched_twice (w : World) r1 evs1 r2 evs2 :
  let w1 := set_remote r1 (set_trace (trace w ++ evs1)%list w) in
  set_remote r2 (set_trace (trace w1 ++ evs2)%list w1)
  = set_remote r2 (set_trace (trace w ++ (evs1 ++ evs2))%list w).
Proof. cbn. unfold set_remote, set_trace. cbn. by rewrite app_assoc. Qed.

Lemma touches_stay {A} P (c : M World A) : (∀ w, (c w).2 = w) → touches P c.
Proof. intros Hc w. exists (remote w), []. rewrite Hc. split; [apply untouched|done]. Qed.

Lemma touches_ret {A} P (a : A) : touches P (mret a).
Proof. by apply touches_stay. Qed.

Lemma touches_raise {A} P e : touches P (raise e : M World A).
Proof. by apply touches_stay. Qed.

Lemma touches_gets {A} P (f : World → A) : touches P (gets f).
Proof. by apply touches_stay. Qed.

Lemma touches_log (P : Event → Prop) ev : P ev → touches P (log ev).
Proof.
  intros Hev w. exists (remote w), [ev]. split; [by destruct w|by constructor].
Qed.

Lemma touches_inRemote {A} P (c : M Remote A) : touches P (inRemote c).
Proof.
  intros w. unfold inRemote, zoom. destruct (c (remote w)) as [r r'].
  exists r', []. split; [|done]. destruct w. cbn. by rewrite app_nil_r.
Qed.

Lemma touches_bind {A B} P (c : M World A) (k : A → M World B) :
  touches P c → (∀ a, touches P (k a)) → touches P (c ≫= k).
Proof.
  intros Hc Hk w. unfold mbind, M_bind. destruct (Hc w) as [r1 [evs1 [Hw1 Hevs1]]].
  destruct (c w) as [[a|e|] w1]; cbn in *; [|by eauto..].
  destruct (Hk a w1) as [r2 [evs2 [Hw2 Hevs2]]].
  exists r2, (evs1 ++ evs2)%list. split; [|by apply Forall_app].
  rewrite Hw2, Hw1. apply touched_twice.
Qed.

Lemma touches_build_dbfs_backend P p : touches P (_build_dbfs_backend p).
Proof.
  unfold _build_dbfs_backend. destruct (startswith _ _);
    repeat (apply touches_bind; [apply touches_inRemote|intros _]);
    apply touches_ret.
Qed.

Lemma touches_build_dbfs P p : touches P (build_dbfs p).
Proof.
  apply touches_bind; [apply touches_build_dbfs_backend|intros; apply touches_ret].
Qed.

Lemma touches_broadcast_object_list (P : Event → Prop) l src :
  P (EvBroadcast l) → touches P (broadcast_object_list l src).
Proof.
  intros HP. apply touches_bind; [by apply touches_log|]. intros _.
  apply touches_bind; [apply touches_gets|]. intros rank.
  case_bool_decide; [apply touches_ret|apply touches_gets].
Qed.

Lemma method_touches_stay {A} P (c : M Proc A) :
  (∀ p, world (c p).2 = world p) → method_touches P c.
Proof. intros Hc p. exists (remote (world p)), []. rewrite Hc. split; [apply untouched|done]. Qed.

Lemma method_touches_inW {A} P (c : M World A) : touches P c → method_touches P (inW c).
Proof.
  intros Hc p. destruct (Hc (world p)) as [r [evs [Hw Hevs]]].
  exists r, evs. split; [|done]. unfold inW, zoom. cbn.
  by destruct (c (world p)).
Qed.

Lemma method_touches_bind {A B} P (c : M Proc A) (k : A → M Proc B) :
  method_touches P c → (∀ a, method_touches P (k a)) → method_touches P (c ≫= k).
Proof.
  intros Hc Hk p. unfold mbind, M_bind. destruct (Hc p) as [r1 [evs1 [Hw1 Hevs1]]].
  destruct (c p) as [[a|e|] p1]; cbn in *; [|by eauto..].
  destruct (Hk a p1) as [r2 [evs2 [Hw2 Hevs2]]].
  exists r2, (evs1 ++ evs2)%list. split; [|by apply Forall_app].
  rewrite Hw2, Hw1. apply touched_twice.
Qed.

Ltac touches_leaf :=
  first
    [ by apply method_touches_stay
    | apply method_touches_inW;
      first [ apply touches_inRemote | apply touches_build_dbfs
            | apply touches_build_dbfs_backend | apply touches_gets
            | by apply touches_broadcast_object_list ] ].

Tactic Notation "touches_bind" ident(x) :=
  apply method_touches_bind; [try touches_leaf|intros x; try touches_leaf].

Lemma method_touches_build_if_none P build :
  touches P build → method_touches P (build_if_none build).
Proof.
  intros Hb. unfold build_if_none, get_self. touches_bind o.
  destruct o; [touches_leaf|]. touches_bind store. by apply method_touches_inW.
Qed.

Lemma method_touches_init_backend (P : Event → Prop) :
  (∀ l, P (EvBroadcast l)) → method_touches P init_backend.
Proof.
  intros HP. unfold init_backend, get_self.
  touches_bind is_dbfs. destruct (negb is_dbfs).
  { touches_bind folder. touches_bind u.
    apply method_touches_build_if_none, touches_inRemote. }
  touches_bind p. destruct (negb _).
  { touches_bind u. apply method_touches_build_if_none, touches_build_dbfs. }
  touches_bind rank. touches_bind u.
  { case_bool_decide; [|touches_leaf].
    touches_bind u; [apply method_touches_build_if_none, touches_build_dbfs|].
    touches_bind o. destruct o as [[]|]; try touches_leaf.
    touches_bind resolved. }
  touches_bind p'. touches_bind path_list.
  destruct path_list as [|p0 ?]; [touches_leaf|].
  touches_bind u'. case_bool_decide; [|touches_leaf].
  touches_bind store.
Qed.

(** The events of [init] up to the probe contain no credential probe, and
    the rank is what it was. *)
Lemma init_backend_no_probe p :
  ∃ evs,
    trace (world (init_backend p).2) = (trace (world p) ++ evs)%list ∧
    Forall (λ ev, is_validate ev = false) evs ∧
    global_rank (world (init_backend p).2) = global_rank (world p).
Proof.
  destruct (method_touches_init_backend (λ ev, is_validate ev = false) ltac:(done) p)
    as [r [evs [Hw Hevs]]].
  exists evs. by rewrite Hw.
Qed.

(** For a [dbfs] folder whose path is not an MLflow path, the first
    statement of [init] ends in its [return] or in an exception. *)
Lemma init_backend_returns_early p :
  _is_dbfs (self p) = true →
  startswith (path (self p)) MLFLOW_DBFS_PATH_PREFIX = false →
  (init_backend p).1 ≠ Returns false.
Proof.
  destruct p as [w u]. cbn. intros Hdbfs Hpath.
  unfold init_backend. run. rewrite Hdbfs. cbn. rewrite Hpath. cbn.
  by destruct (build_if_none _ _) as [[[]|e|] p1].
Qed.

Lemma bind_not_returns {St A B} (c : M St A) (k : A → M St B) (b : B) s :
  (∀ a s1, c s = (Returns a, s1) → (k a s1).1 ≠ Returns b) →
  ((c ≫= k) s).1 ≠ Returns b.
Proof.
  intros Hk. unfold mbind, M_bind. destruct (c s) as [[a|e|] s1]; [|done..].
  by apply Hk.
Qed.

(** Otherwise it never ends in the [return]. *)
Lemma init_backend_goes_on p :
  _is_dbfs (self p) = false ∨ startswith (path (self p)) MLFLOW_DBFS_PATH_PREFIX = true →
  (init_backend p).1 ≠ Returns true.
Proof.
  intros Hkind. unfold init_backend.
  apply bind_not_returns. intros is_dbfs ? [= <- <-].
  destruct (_is_dbfs (self p)); cbn [negb].
  - destruct Hkind as [?|Hpath]; [done|].
    apply bind_not_returns. intros ? ? [= <- <-]. rewrite Hpath. cbn [negb].
    apply bind_not_returns. intros rank p1 _.
    apply bind_not_returns. intros _ p2 _.
    apply bind_not_returns. intros p' p3 _.
    apply bind_not_returns. intros [|p0 l] p4 _; [done|].
    apply bind_not_returns. intros _ p5 _.
    case_bool_decide; [|done].
    apply bind_not_returns. intros store p6 _.
    apply bind_not_returns. by intros _ p7 _.
  - apply bind_not_returns. intros folder p1 _.
    apply bind_not_returns. by intros _ p2 _.
Qed.

(** One probe logs one [EvValidate] event and nothing else. *)
Lemma validate_probe_trace p :
  trace (world (validate_probe p).2)
  = (trace (world p) ++
     [EvValidate (object_store (self p)) ".credentials_validated_successfully"])%list ∧
  self (validate_probe p).2 = self p.
Proof.
  destruct p as [w u]. unfold validate_probe. run. unfold inRemote, zoom. cbn.
  by destruct (validate_credentials _ _ _) as [[[]|e|] r].
Qed.

Lemma retry_attempts_exhausted {St} `{HasWorld St} {A} cls (func : Z → M St A) spare :
  ∀ i s e s',
    raises_each_time cls func spare i s e s' →
    retry_attempts cls func spare i s = (Raises e, s').
Proof.
  induction spare as [|spare IH]; intros i s e s' [e0 [s0 [Hrun [Hcls Hrest]]]]; cbn.
  - rewrite Hrun, Hcls. by destruct Hrest as [-> ->].
  - rewrite Hrun, Hcls. run. by apply IH.
Qed.

Lemma retry_probe_extends spare : ∀ i p,
  ∃ evs,
    trace (world (retry_attempts ObjectStoreTransientError (λ _, validate_probe) spare i p).2)
    = (trace (world p) ++
       EvValidate (object_store (self p)) ".credentials_validated_successfully" :: evs)%list.
Proof.
  induction spare as [|spare IH]; intros i p; cbn;
    destruct (validate_probe_trace p) as [Ht Hself];
    destruct (validate_probe p) as [[[]|e|] p1]; cbn in *; try by (exists []).
  - destruct (isinstance e _); by exists [].
  - destruct (isinstance e _); [|by exists []]. run.
    set (p2 := {| world := _; self := self p1 |}).
    destruct (IH (i + 1) p2) as [evs ->]. subst p2. cbn. rewrite Ht.
    eexists. by rewrite <- !app_assoc.
Qed.


End Uploader.

(** * Further properties of the module *)

(** ** Submission, waiting and closing *)

Section MoreUploader.
Context `{Collaborators}.

(** X1.  On an open pool and for a source file that exists,
    [upload_file_async] returns a future that did not exist before, tracks
    it after the ones already tracked, hands it to the pool, stages a copy
    with the source's content under the next unique name, leaves the source
    file in place, and blocks on nothing. *)
Theorem upload_file_async_submits p name file overwrite content :
  _shutdown_thread (executor (self p)) = false →
  files (world p) !! file = Some content →
  ∃ p',
    upload_file_async name file overwrite p = (Returns (futures_made (world p)), p') ∧
    futures (self p') = (futures (self p) ++ [futures_made (world p)])%list ∧
    _pending_work_items (executor (self p'))
    = (_pending_work_items (executor (self p)) ++ [futures_made (world p)])%list ∧
    futures_made (world p') = S (futures_made (world p)) ∧
    files (world p') = <[next_staged_path p := content]> (files (world p)) ∧
    files (world p') !! file = Some content ∧
    trace (world p')
    = (trace (world p) ++
       [EvCopy file (next_staged_path p);
        EvSubmit (futures_made (world p)) (next_call p name overwrite)])%list ∧
    now (world p') = now (world p).
Proof.
  intros Hopen Hfile. destruct p as [w u]. cbn in *.
  unfold upload_file_async, uuid4, shutil_copy2, executor_submit. run.
  rewrite Hfile. cbn. rewrite Hopen. cbn.
  eexists. split; [reflexivity|]. cbn. split_and!; try done.
  - destruct (decide (next_staged_path {| world := w; self := u |} = file)) as [<-|Hne].
    + apply lookup_insert_eq.
    + unfold next_staged_path in Hne. cbn in Hne. by rewrite lookup_insert_ne.
  - by rewrite <- app_assoc.
Qed.

(** X2.  For a source file that does not exist, [upload_file_async] raises
    the [FileNotFoundError] of the copy: nothing is staged, nothing is
    submitted, [self] is unchanged; the unique name was drawn all the
    same. *)
Theorem upload_file_async_missing_source p name file overwrite :
  files (world p) !! file = None →
  ∃ w',
    upload_file_async name file overwrite p
    = (Raises (Exn FileNotFoundError ("No such file or directory: " ++ file)),
       {| world := w'; self := self p |}) ∧
    files w' = files (world p) ∧
    futures_made w' = futures_made (world p) ∧
    uuids_drawn w' = S (uuids_drawn (world p)) ∧
    trace w' = (trace (world p) ++ [EvCopy file (next_staged_path p)])%list.
Proof.
  intros Hfile. destruct p as [w u]. cbn in *.
  unfold upload_file_async, uuid4, shutil_copy2. run. rewrite Hfile. cbn.
  eexists. by split_and!.
Qed.

(** What the loop of [wait] tells about the handles it ran over. *)
Lemma wait_loop_cases fs : ∀ p,
  self (wait_loop fs p).2 = self p ∧
  fates (world (wait_loop fs p).2) = fates (world p) ∧
  (∃ evs, trace (world (wait_loop fs p).2) = (trace (world p) ++ evs)%list ∧
          Forall (λ ev, is_exception_call ev = true) evs) ∧
  match (wait_loop fs p).1 with
  | Returns _ => Forall (resolves_successfully (world p)) fs
  | Raises e => ∃ f, f ∈ fs ∧ resolves_with_error (world p) f e
  | BlocksForever => ∃ f, f ∈ fs ∧ fates (world p) !! f = None
  end.
Proof.
  induction fs as [|f rest IH]; intros [w u].
  - cbn. split_and!; try done. exists []. by rewrite app_nil_r.
  - destruct (fates w !! f) as [[t [e|]]|] eqn:Hf.
    + rewrite (wait_loop_step_error f rest w u t e Hf). cbn.
      split_and!; [done|apply awaited_fates| |].
      * exists [EvException f]. rewrite awaited_trace. split; [done|by constructor].
      * exists f. split; [left|by exists t].
    + rewrite (wait_loop_step_ok f rest w u t Hf).
      destruct (IH {| world := awaited w f; self := u |}) as [Hs [Hfates [[evs [Ht Hevs]] Hr]]].
      cbn in *. rewrite awaited_fates in Hfates. rewrite awaited_trace in Ht.
      split_and!; [done..| |].
      * exists (EvException f :: evs). rewrite Ht, <- app_assoc. split; [done|by constructor].
      * destruct (wait_loop rest _).1 as [[]|e|].
        -- constructor; [by exists t|].
           eapply Forall_impl; [exact Hr|]. intros g [t' Hg]. exists t'.
           by rewrite awaited_fates in Hg.
        -- destruct Hr as [g [Hin [t' Hg]]]. exists g. split; [by right|].
           exists t'. by rewrite awaited_fates in Hg.
        -- destruct Hr as [g [Hin Hg]]. exists g. split; [by right|].
           by rewrite awaited_fates in Hg.
    + rewrite (wait_loop_step_never f rest w u Hf). cbn.
      split_and!; [done|apply awaited_fates| |].
      * exists [EvException f]. rewrite awaited_trace. split; [done|by constructor].
      * exists f. split; [left|done].
Qed.

Lemma join_all_cases fs : ∀ w,
  (∀ e, (join_all fs w).1 ≠ Raises e) ∧
  ((join_all fs w).1 = Returns tt → Forall (λ f, is_Some (fates w !! f)) fs).
Proof.
  induction fs as [|f rest IH]; intros w; cbn; [done|].
  unfold Future_join. run.
  destruct (fates w !! f) as [[t eo]|] eqn:Hf; cbn; [|done].
  destruct (IH (set_now (now w `max` t) w)) as [Hne Hok].
  destruct (join_all rest _) as [[[]|e|] w1]; cbn in *; [|by destruct (Hne e)|done].
  split; [done|]. intros _. constructor; [by rewrite Hf|]. by apply Hok.
Qed.

(** X3.  When [wait_and_close()] returns, the pool is shut down, nothing is
    tracked, and every handle that was tracked has resolved successfully.
    When it raises, the exception is that of a tracked handle, [self] is
    unchanged and the pool was not shut down: the uploader still accepts
    submissions. *)
Theorem wait_and_close_outcomes p r p' :
  wait_and_close p = (r, p') →
  match r with
  | Returns _ =>
      _shutdown_thread (executor (self p')) = true ∧
      futures (self p') = [] ∧
      Forall (resolves_successfully (world p)) (futures (self p)) ∧
      Forall (λ f, is_Some (fates (world p) !! f)) (_pending_work_items (executor (self p)))
  | Raises e =>
      self p' = self p ∧
      (∃ f, f ∈ futures (self p) ∧ resolves_with_error (world p) f e) ∧
      ∃ evs, trace (world p') = (trace (world p) ++ evs)%list ∧ EvShutdown ∉ evs
  | BlocksForever => True
  end.
Proof.
  destruct p as [w u]. unfold wait_and_close, wait, executor_shutdown. run.
  destruct (wait_loop_cases (futures u) {| world := w; self := u |})
    as [Hself [Hfates [[evs [Ht Hevs]] Hr]]].
  destruct (wait_loop (futures u) _) as [[[]|e|] [w1 u1]]; cbn in *.
  - destruct (join_all_cases (_pending_work_items (executor u1))
                (set_trace (trace w1 ++ [EvShutdown]) w1)) as [Hne Hok].
    destruct (join_all _ _) as [[[]|e|] w2]; cbn in *.
    + intros [= <- <-]. cbn. subst u1. split_and!; [done..|].
      specialize (Hok eq_refl). by rewrite Hfates in Hok.
    + by destruct (Hne e).
    + by intros [= <- <-].
  - intros [= <- <-]. cbn. split_and!; [done..|].
    exists evs. split; [done|]. intros Hin.
    rewrite Forall_forall in Hevs. by apply Hevs in Hin.
  - by intros [= <- <-].
Qed.

(** X4.  After a [wait()] that returned nothing is tracked: a second
    [wait()] and a [check_workers()] both return at once and change
    nothing. *)
Theorem wait_then_wait_or_check p p' :
  wait p = (Returns tt, p') →
  futures (self p') = [] ∧
  wait p' = (Returns tt, p') ∧
  check_workers p' = (Returns tt, p').
Proof.
  destruct p as [w u]. unfold wait. run.
  destruct (wait_loop_cases (futures u) {| world := w; self := u |}) as [Hself _].
  destruct (wait_loop (futures u) _) as [[[]|e|] [w1 u1]]; cbn in *; [|done..].
  intros [= <-]. split; [done|]. split.
  - cbn. by destruct w1.
  - unfold check_workers. run. by destruct w1.
Qed.

Lemma first_failure_filter w (P : Future → bool) fs :
  first_failure w fs = None → first_failure w (List.filter P fs) = None.
Proof.
  induction fs as [|f rest IH]; cbn; [done|].
  destruct (failed_with w f) eqn:Hf; [done|]. intros Hrest.
  destruct (P f); cbn; [rewrite Hf|]; by apply IH.
Qed.

Lemma filter_filter_same {A} (P : A → bool) l :
  List.filter P (List.filter P l) = List.filter P l.
Proof.
  induction l as [|x l IH]; cbn; [done|].
  destruct (P x) eqn:HP; cbn; [rewrite HP|]; by rewrite ?IH.
Qed.

(** X5.  A [check_workers()] that returned has nothing left to remove: a
    second call at the same clock returns as well and keeps [self] as it
    is; none of the handles still tracked has succeeded. *)
Theorem check_workers_twice p p' :
  check_workers p = (Returns tt, p') →
  ∃ p'',
    check_workers p' = (Returns tt, p'') ∧
    self p'' = self p' ∧
    Forall (λ f, succeeded (world p) f = false) (futures (self p')).
Proof.
  rewrite check_workers_run. cbn zeta.
  destruct (first_failure (world p) (futures (self p))) as [e|] eqn:Hfirst; [done|].
  intros [= <-]. rewrite check_workers_run. cbn.
  set (w1 := set_trace _ _).
  assert (same_futures w1 (world p)) as Hs by done.
  rewrite (first_failure_same _ _ _ Hs).
  change (λ f, negb (succeeded w1 f)) with (λ f, negb (succeeded (world p) f)).
  destruct (self p) as [? ? ? ? ? ? ? fs]. cbn in *.
  rewrite (first_failure_filter _ _ _ Hfirst), filter_filter_same.
  eexists. split; [done|]. split; [done|].
  apply Forall_forall. intros f Hf%filter_not_succeeded_elem. by destruct Hf.
Qed.

(** X6.  What each outcome of [wait()] tells: when it returns, every
    handle that was tracked resolves successfully and none is tracked any
    more; when it raises [e], some tracked handle resolves with [e] and
    [self] is unchanged; when it blocks forever, some tracked handle never
    resolves. *)
Theorem wait_outcomes p :
  match (wait p).1 with
  | Returns _ =>
      Forall (resolves_successfully (world p)) (futures (self p)) ∧
      futures (self (wait p).2) = []
  | Raises e =>
      (∃ f, f ∈ futures (self p) ∧ resolves_with_error (world p) f e) ∧
      self (wait p).2 = self p
  | BlocksForever =>
      (∃ f, f ∈ futures (self p) ∧ fates (world p) !! f = None) ∧
      self (wait p).2 = self p
  end.
Proof.
  destruct p as [w u]. unfold wait. run.
  destruct (wait_loop_cases (futures u) {| world := w; self := u |}) as [Hself [_ [_ Hr]]].
  destruct (wait_loop (futures u) _) as [[[]|e|] [w1 u1]]; cbn in *; by subst.
Qed.

End MoreUploader.

(** ** The worker's probes, removals and stagger *)

Section MoreWorker.
Context `{Collaborators}.

Lemma emits_time_sleep (P : Event → Prop) d : P (EvSleep d) → emits P (time_sleep d).
Proof.
  intros HP. unfold time_sleep. do 2 (case_bool_decide; [apply emits_raise|]).
  apply emits_bind; [by apply emits_log|]. intros _. by apply emits_nothing.
Qed.

Lemma emits_int_environ_get P key d : emits P (int_environ_get key d).
Proof.
  apply emits_nothing. intros w. unfold int_environ_get. run.
  destruct (environ w !! key) as [s|]; [|done]. by destruct (int_of_str s).
Qed.

Lemma emits_build_dbfs_backend P p : emits P (_build_dbfs_backend p).
Proof.
  unfold _build_dbfs_backend. destruct (startswith _ _);
    repeat (apply emits_bind; [apply emits_inRemote|intros _]);
    apply emits_ret.
Qed.

(** The events of a worker run are the stagger sleep and those of
    [upload_file]. *)
Lemma emits_worker (P : Event → Prop) remote_folder is_dbfs dbfs_path name path overwrite n :
  (∀ d, P (EvSleep d)) →
  (∀ o, emits P (upload_file n o name path overwrite)) →
  emits P (_upload_file_to_object_store remote_folder is_dbfs dbfs_path name path overwrite n).
Proof.
  intros Hsleep Hup. unfold _upload_file_to_object_store.
  apply emits_bind.
  { destruct is_dbfs; [|apply emits_inRemote].
    apply emits_bind; [apply emits_build_dbfs_backend|intros; apply emits_ret]. }
  intros o. apply emits_bind; [apply emits_gets|]. intros rank.
  apply emits_bind; [apply emits_int_environ_get|]. intros stagger.
  apply emits_bind; [by apply emits_time_sleep|]. intros _.
  apply emits_bind; [apply Hup|intros; apply emits_ret].
Qed.

(** An attempt that does not probe: [overwrite] is set, or it is not the
    first attempt. *)
Lemma emits_upload_file_body_no_probe (P : Event → Prop) o name path overwrite i :
  overwrite = true ∨ i ≠ 0 →
  (∀ ev, is_upload_event ev = true → is_probe ev = false → P ev) →
  emits P (upload_file_body o name path overwrite i).
Proof.
  intros Hskip HP. unfold upload_file_body.
  assert (bool_decide (i = 0) && negb overwrite = false) as ->.
  { destruct Hskip as [->|Hi]; [by rewrite andb_false_r|]. by rewrite bool_decide_false. }
  apply emits_bind; [apply emits_ret|]. intros _.
  apply emits_bind.
  { apply emits_bind; [by apply emits_log, HP|]. intros _.
    apply emits_on_object_store. intros store.
    apply emits_bind; [apply emits_gets|]. intros fs. apply emits_inRemote. }
  intros _. by apply emits_os_remove, HP.
Qed.

(** X7.  With [overwrite = True] the worker never asks for the size of the
    destination, on any attempt. *)
Theorem overwrite_never_probes remote_folder is_dbfs dbfs_path name path n w :
  ∃ evs,
    trace (_upload_file_to_object_store remote_folder is_dbfs dbfs_path name path true n w).2
    = (trace w ++ evs)%list ∧
    Forall (λ ev, is_probe ev = false) evs.
Proof.
  apply emits_worker; [done|]. intros o.
  apply emits_retry_attempts; [|done]. intros i.
  apply emits_upload_file_body_no_probe; [by left|done].
Qed.

Lemma probe_count_app evs evs' :
  probe_count (evs ++ evs') = (probe_count evs + probe_count evs')%nat.
Proof. unfold probe_count. by rewrite List.filter_app, length_app. Qed.

Lemma probe_count_none evs :
  Forall (λ ev, is_probe ev = false) evs → probe_count evs = 0%nat.
Proof.
  unfold probe_count. induction 1 as [|ev evs Hev _ IH]; cbn; [done|]. by rewrite Hev.
Qed.

(** The first attempt makes at most one probe. *)
Lemma upload_file_body_probe_count o name path overwrite i w :
  ∃ evs,
    trace (upload_file_body o name path overwrite i w).2 = (trace w ++ evs)%list ∧
    (probe_count evs ≤ 1)%nat.
Proof.
  destruct (decide (overwrite = true ∨ i ≠ 0)) as [Hskip|Hprobe].
  - destruct (emits_upload_file_body_no_probe (λ ev, is_probe ev = false)
                o name path overwrite i Hskip ltac:(done) w) as [evs [Ht Hevs]].
    exists evs. split; [done|]. rewrite probe_count_none by done. lia.
  - assert (overwrite = false ∧ i = 0) as [-> ->].
    { destruct overwrite; [by destruct Hprobe; left|].
      split; [done|]. destruct (decide (i = 0)); [done|]. destruct Hprobe. by right. }
    destruct (upload_file_body_probes_first o name path w) as [rest Hrest].
    assert (Forall (λ ev, is_probe ev = false) rest) as Hnone.
    { revert Hrest. unfold upload_file_body.
      replace (bool_decide (0 = 0)) with true by done. cbn [andb negb].
      set (k := λ _ : unit, _).
      assert (emits (λ ev, is_probe ev = false) (k tt)) as Hk.
      { subst k. cbn.
        apply emits_bind; [|intros; by apply emits_os_remove].
        apply emits_bind; [by apply emits_log|]. intros _.
        apply emits_on_object_store. intros store.
        apply emits_bind; [apply emits_gets|]. intros fs. apply emits_inRemote. }
      unfold mbind at 1. unfold M_bind at 1.
      unfold mbind at 1. unfold M_bind at 1. unfold try_except, ObjectStore_get_object_size.
      run. set (w1 := set_trace _ w).
      assert (∃ r r', on_object_store o "get_object_size"
                        (λ store, inRemote (get_object_size store name)) w1
                      = (r, set_remote r' w1)) as [r [r' ->]].
      { destruct o as [store|]; cbn.
        - unfold inRemote, zoom. destruct (get_object_size store name (remote w1)); eauto.
        - eexists _, (remote w1). by rewrite set_remote_same. }
      destruct r as [size|e|]; cbn.
      - intros Heq. apply app_inv_head in Heq. by injection Heq as <-.
      - destruct (isinstance e FileNotFoundError); cbn.
        + destruct (Hk (set_remote r' w1)) as [evs [Ht Hevs]].
          destruct (k tt (set_remote r' w1)) as [r2 w2]. cbn in *.
          rewrite Ht, <- app_assoc. intros Heq. apply app_inv_head in Heq.
          by injection Heq as <-.
        + intros Heq. apply app_inv_head in Heq. by injection Heq as <-.
      - intros Heq. apply app_inv_head in Heq. by injection Heq as <-. }
    exists (EvGetObjectSize name :: rest). split; [done|].
    change (EvGetObjectSize name :: rest) with ([EvGetObjectSize name] ++ rest)%list.
    rewrite probe_count_app, (probe_count_none rest) by done. cbn. lia.
Qed.

(** With a wrapper that passes the attempt number, the attempts after the
    first make no probe. *)
Lemma retry_attempts_no_probe o name path overwrite spare :
  retry_passes_index = true →
  ∀ i, 1 ≤ i →
    emits (λ ev, is_probe ev = false)
      (retry_attempts ObjectStoreTransientError
         (upload_file_body o name path overwrite) spare i).
Proof.
  intros Hpass. induction spare as [|spare IH]; intros i Hi w; cbn; rewrite Hpass.
  - destruct (emits_upload_file_body_no_probe (λ ev, is_probe ev = false)
                o name path overwrite i ltac:(right; lia) ltac:(done) w) as [evs [Ht Hevs]].
    destruct (upload_file_body _ _ _ _ i w) as [[a|e|] w1]; [by eauto| |by eauto].
    destruct (isinstance e _); by eauto.
  - destruct (emits_upload_file_body_no_probe (λ ev, is_probe ev = false)
                o name path overwrite i ltac:(right; lia) ltac:(done) w) as [evs [Ht Hevs]].
    destruct (upload_file_body _ _ _ _ i w) as [[a|e|] w1]; [by eauto| |by eauto].
    destruct (isinstance e _); [|by eauto]. run.
    set (w2 := set_now _ _).
    destruct (IH (i + 1) ltac:(lia) w2) as [evs' [Ht' Hevs']].
    destruct (retry_attempts _ _ spare (i + 1) w2) as [r w3]. cbn in *.
    exists (evs ++ EvBackoff i :: evs')%list. split.
    + rewrite Ht', Ht. by rewrite <- !app_assoc.
    + apply Forall_app. split; [done|]. by constructor.
Qed.

Lemma upload_file_probe_count n o name path overwrite w :
  retry_passes_index = true →
  ∃ evs,
    trace (upload_file n o name path overwrite w).2 = (trace w ++ evs)%list ∧
    (probe_count evs ≤ 1)%nat.
Proof.
  intros Hpass. unfold upload_file, retry.
  destruct (upload_file_body_probe_count o name path overwrite 0 w) as [evs [Ht Hevs]].
  destruct (Z.to_nat (n - 1)) as [|spare]; cbn; rewrite Hpass.
  - destruct (upload_file_body _ _ _ _ 0 w) as [[a|e|] w1]; [by eauto| |by eauto].
    destruct (isinstance e _); by eauto.
  - destruct (upload_file_body _ _ _ _ 0 w) as [[a|e|] w1]; [by eauto| |by eauto].
    destruct (isinstance e _); [|by eauto]. run.
    set (w2 := set_now _ _).
    destruct (retry_attempts_no_probe o name path overwrite spare Hpass (0 + 1) ltac:(lia) w2)
      as [evs' [Ht' Hevs']].
    destruct (retry_attempts _ _ spare (0 + 1) w2) as [r w3]. cbn in *.
    exists (evs ++ [EvBackoff 0] ++ evs')%list. split.
    + rewrite Ht', Ht. by rewrite <- !app_assoc.
    + rewrite !probe_count_app, (probe_count_none evs') by done. cbn. lia.
Qed.

(** X8.  When the retry wrapper passes the attempt number, a worker run
    probes the destination at most once, whatever the number of
    attempts. *)
Theorem probe_at_most_once remote_folder is_dbfs dbfs_path name path overwrite n w :
  retry_passes_index = true →
  ∃ evs,
    trace (_upload_file_to_object_store remote_folder is_dbfs dbfs_path name path
             overwrite n w).2 = (trace w ++ evs)%list ∧
    (probe_count evs ≤ 1)%nat.
Proof.
  intros Hpass.
  destruct (worker_phases remote_folder is_dbfs dbfs_path name path overwrite n w)
    as [[r [-> _]]|[r [o [s [Hs [Hd ->]]]]]].
  - exists []. rewrite app_nil_r. split; [done|]. cbn. lia.
  - destruct (upload_file_probe_count n o name path overwrite
                (staggered r (local_rank w * s) w) Hpass) as [evs [Ht Hevs]].
    exists (EvSleep (local_rank w * s) :: evs). split.
    + unfold mbind, M_bind.
      destruct (upload_file n o name path overwrite _) as [[[]|e|] w3]; cbn in *;
        by rewrite Ht, <- app_assoc.
    + change (EvSleep (local_rank w * s) :: evs)
        with ([EvSleep (local_rank w * s)] ++ evs)%list.
      rewrite probe_count_app. cbn. lia.
Qed.

Lemma removes_last_prefix {A} name path (r : outcome A) pre evs :
  Forall (λ ev, is_remove ev = false) pre →
  removes_last name path r evs → removes_last name path r (pre ++ evs).
Proof.
  intros Hpre [[Hevs Hr]|[[pre' [-> Hpre']] Hr]].
  - left. split; [by apply Forall_app|done].
  - right. split; [|done]. exists (pre ++ pre')%list.
    split; [by rewrite app_assoc|by apply Forall_app].
Qed.

Lemma upload_then_remove_last o name path w :
  ∃ evs,
    trace ((ObjectStore_upload_object o name path;; os_remove path) w).2
    = (trace w ++ evs)%list ∧
    removes_last name path ((ObjectStore_upload_object o name path;; os_remove path) w).1 evs.
Proof.
  unfold ObjectStore_upload_object, os_remove. run.
  set (w1 := set_trace _ w).
  assert (∃ r r', on_object_store o "upload_object"
                    (λ store, fs ← gets files; inRemote (upload_object store name path fs)) w1
                  = (r, set_remote r' w1)) as [r [r' Hcall]].
  { destruct o as [store|]; cbn.
    - run. unfold inRemote, zoom. destruct (upload_object store name path _ _); eauto.
    - eexists _, (remote w1). by rewrite set_remote_same. }
  unfold mbind, M_bind, gets in Hcall. rewrite Hcall.
  destruct r as [[]|e|]; cbn.
  - destruct (files w !! path) eqn:Hp; cbn.
    + exists [EvUploadObject name path; EvRemove path]. split; [by rewrite <- app_assoc|].
      right. split; [by exists []|done].
    + exists [EvUploadObject name path; EvRemove path]. split; [by rewrite <- app_assoc|].
      right. split; [by exists []|]. by intros ? [= <-].
  - exists [EvUploadObject name path]. split; [done|]. left. split; [|done].
    by constructor.
  - exists [EvUploadObject name path]. split; [done|]. left. split; [|done].
    by constructor.
Qed.

Lemma upload_file_body_removes_last o name path overwrite i w :
  ∃ evs,
    trace (upload_file_body o name path overwrite i w).2 = (trace w ++ evs)%list ∧
    removes_last name path (upload_file_body o name path overwrite i w).1 evs.
Proof.
  unfold upload_file_body.
  set (probe := if _ && _ then _ else _).
  assert (emits (λ ev, is_remove ev = false) probe) as Hprobe.
  { subst probe. destruct (_ && _); [|apply emits_ret].
    apply emits_bind.
    - apply emits_try_except; [|intros; apply emits_ret].
      apply emits_bind; [|intros; apply emits_ret].
      apply emits_bind; [by apply emits_log|]. intros _.
      apply emits_on_object_store. intros store. apply emits_inRemote.
    - intros []; [apply emits_raise|apply emits_ret]. }
  unfold mbind at 1 3. unfold M_bind at 1 3.
  destruct (Hprobe w) as [pre [Ht Hpre]].
  destruct (probe w) as [[[]|e|] w1]; cbn in Ht.
  - destruct (upload_then_remove_last o name path w1) as [evs [Ht' Hlast]].
    exists (pre ++ evs)%list. split; [by rewrite Ht', Ht, app_assoc|].
    by apply removes_last_prefix.
  - exists pre. split; [done|]. by left.
  - exists pre. split; [done|]. by left.
Qed.

Lemma retry_attempts_removes_last o name path overwrite spare : ∀ i w,
  ∃ evs,
    trace (retry_attempts ObjectStoreTransientError
             (upload_file_body o name path overwrite) spare i w).2 = (trace w ++ evs)%list ∧
    removes_last name path
      (retry_attempts ObjectStoreTransientError
         (upload_file_body o name path overwrite) spare i w).1 evs.
Proof.
  induction spare as [|spare IH]; intros i w; cbn;
    destruct (upload_file_body_removes_last o name path overwrite
                (if retry_passes_index then i else 0) w) as [evs [Ht Hlast]];
    destruct (upload_file_body _ _ _ _ _ w) as [[[]|e|] w1]; cbn in *; try by eauto.
  - destruct (isinstance e _); by eauto.
  - destruct (isinstance e _) eqn:Hcls; [|by eauto].
    destruct Hlast as [[Hevs _]|[_ Hno]]; [|by rewrite (Hno e eq_refl) in Hcls].
    run. set (w2 := set_now _ _).
    destruct (IH (i + 1) w2) as [evs' [Ht' Hlast']].
    destruct (retry_attempts _ _ spare (i + 1) w2) as [r w3]. cbn in *.
    exists (evs ++ EvBackoff i :: evs')%list. split.
    + rewrite Ht', Ht. by rewrite <- !app_assoc.
    + apply removes_last_prefix; [done|].
      change (EvBackoff i :: evs') with ([EvBackoff i] ++ evs')%list.
      apply removes_last_prefix; [by constructor|done].
Qed.

(** X9.  In a worker run the staged file is removed at most once, as the
    last thing the run does and right after an upload of that file; a run
    that returns has done so, and returns 0. *)
Theorem removal_is_last remote_folder is_dbfs dbfs_path name path overwrite n w :
  ∃ evs,
    trace (_upload_file_to_object_store remote_folder is_dbfs dbfs_path name path
             overwrite n w).2 = (trace w ++ evs)%list ∧
    (Forall (λ ev, is_remove ev = false) evs ∨ ends_with_removal name path evs) ∧
    (∀ z, (_upload_file_to_object_store remote_folder is_dbfs dbfs_path name path
             overwrite n w).1 = Returns z →
          z = 0 ∧ ends_with_removal name path evs).
Proof.
  destruct (worker_phases remote_folder is_dbfs dbfs_path name path overwrite n w)
    as [[r [Hw Hr]]|[r [o [s [Hs [Hd ->]]]]]].
  - exists []. rewrite Hw, app_nil_r. split; [done|]. split; [by left|].
    intros z Hz. by destruct (Hr z).
  - destruct (retry_attempts_removes_last o name path overwrite (Z.to_nat (n - 1)) 0
                (staggered r (local_rank w * s) w)) as [evs [Ht Hlast]].
    exists (EvSleep (local_rank w * s) :: evs).
    change (EvSleep (local_rank w * s) :: evs)
      with ([EvSleep (local_rank w * s)] ++ evs)%list.
    apply (removes_last_prefix name path _ [EvSleep (local_rank w * s)]) in Hlast;
      [|by constructor].
    unfold mbind, M_bind, upload_file, retry.
    destruct (retry_attempts _ _ _ 0 _) as [[[]|e|] w3]; cbn in *.
    + split; [by rewrite Ht, <- app_assoc|].
      destruct Hlast as [[_ Hno]|[Hends _]]; [by destruct (Hno tt)|].
      split; [by right|]. by intros z [= <-].
    + split; [by rewrite Ht, <- app_assoc|].
      split; [|done]. destruct Hlast as [[? _]|[? _]]; [by left|by right].
    + split; [by rewrite Ht, <- app_assoc|].
      split; [|done]. destruct Hlast as [[? _]|[? _]]; [by left|by right].
Qed.

(** X10.  A stagger value that [int()] rejects, or a negative delay, fails
    the task before it sleeps: the task does not return, no event is
    logged, no local file is changed, the clock does not move. *)
Theorem bad_stagger_fails_before_upload remote_folder is_dbfs dbfs_path name path overwrite n w :
  stagger_seconds w = None ∨
  (∃ s, stagger_seconds w = Some s ∧ local_rank w * s < 0) →
  let run := _upload_file_to_object_store remote_folder is_dbfs dbfs_path name path
               overwrite n in
  (∀ z, (run w).1 ≠ Returns z) ∧
  trace (run w).2 = trace w ∧
  files (run w).2 = files w ∧
  now (run w).2 = now w.
Proof.
  intros Hbad. cbn zeta.
  destruct (worker_phases remote_folder is_dbfs dbfs_path name path overwrite n w)
    as [[r [Hw Hr]]|[r [o [s [Hs [Hd _]]]]]].
  - by rewrite Hw.
  - destruct Hbad as [Hnone|[s' [Hs' Hneg]]]; [congruence|].
    assert (s' = s) as -> by congruence. lia.
Qed.

Lemma retry_attempts_extends_attempt {A} cls (func : Z → M World A) spare i w :
  (∀ j, emits (λ _, True) (func j)) →
  ∃ evs,
    trace (retry_attempts cls func spare i w).2
    = (trace (func (if retry_passes_index then i else 0) w).2 ++ evs)%list.
Proof.
  intros Hf. destruct spare as [|spare]; cbn;
    destruct (func _ w) as [[a|e|] w1]; cbn; try (exists []; by rewrite app_nil_r);
    destruct (isinstance e cls); try (exists []; by rewrite app_nil_r).
  run. set (w2 := set_now _ _).
  destruct (emits_retry_attempts (λ _, True) cls func spare Hf ltac:(done) (i + 1) w2)
    as [evs [Ht _]].
  exists (EvBackoff i :: evs). rewrite Ht. subst w2. cbn. by rewrite <- app_assoc.
Qed.

Lemma upload_file_body_later_attempt o name path overwrite i w :
  i ≠ 0 →
  upload_file_body o name path overwrite i w
  = (ObjectStore_upload_object o name path;; os_remove path) w.
Proof.
  intros Hi. unfold upload_file_body. rewrite bool_decide_false by done. cbn [andb].
  by unfold mbind at 1, M_bind at 1, mret, M_ret.
Qed.

(** X11.  With [overwrite = False] and a wrapper that passes the attempt
    number: when the size probe of the first attempt raises a transient
    error and a second attempt is allowed, the second attempt uploads
    without probing the destination again. *)
Theorem transient_probe_failure_skips_existence_check n store name path w e :
  retry_passes_index = true →
  2 ≤ n →
  (get_object_size store name (remote w)).1 = Raises e →
  isinstance e ObjectStoreTransientError = true →
  ∃ rest,
    trace (upload_file n (Some store) name path false w).2
    = (trace w ++
       EvGetObjectSize name :: EvBackoff 0 :: EvUploadObject name path :: rest)%list.
Proof.
  intros Hpass Hn Hprobe Hcls.
  assert (isinstance e FileNotFoundError = false) as Hnot.
  { unfold isinstance in *. apply bool_decide_eq_true in Hcls.
    apply bool_decide_eq_false. by rewrite Hcls. }
  assert (upload_file_body (Some store) name path false 0 w
          = (Raises e, probed store name w)) as Hfirst.
  { unfold upload_file_body, probed.
    unfold mbind at 1. unfold M_bind at 1.
    replace (bool_decide (0 = 0)) with true by done. cbn [andb negb].
    unfold mbind at 1. unfold M_bind at 1. unfold try_except, ObjectStore_get_object_size.
    run. unfold inRemote, zoom. cbn.
    destruct (get_object_size store name (remote w)) as [r r']. cbn in *. subst r.
    by rewrite Hnot. }
  unfold upload_file, retry.
  destruct (Z.to_nat (n - 1)) as [|spare] eqn:Hspare; [lia|].
  cbn. rewrite Hpass, Hfirst, Hcls. run.
  set (w2 := set_now _ _).
  destruct (retry_attempts_extends_attempt ObjectStoreTransientError
              (upload_file_body (Some store) name path false) spare (0 + 1) w2) as [evs Ht].
  { intros j. by apply emits_upload_file_body. }
  rewrite Hpass, upload_file_body_later_attempt in Ht by lia.
  destruct (upload_then_remove_trace (Some store) name path w2) as [rest Hrest].
  exists (rest ++ evs)%list. rewrite Ht, Hrest. subst w2. cbn.
  by rewrite <- !app_assoc.
Qed.

End MoreWorker.

(** ** [init]: which client is built, and from which path *)

Section MoreInit.
Context `{Collaborators}.

(** [_build_dbfs_backend] returns the MLflow client for an MLflow path and
    the Unity Catalog client otherwise; a path that
    [UCObjectStore.validate_path] rejects raises before any client is
    built. *)
Theorem build_dbfs_backend_kind p w :
  (∀ store w', _build_dbfs_backend p w = (Returns store, w') → store = dbfs_backend_for p) ∧
  (startswith p MLFLOW_DBFS_PATH_PREFIX = false →
   ∀ e r, UCObjectStore_validate_path p (remote w) = (Raises e, r) →
          _build_dbfs_backend p w = (Raises e, set_remote r w)) ∧
  (startswith p MLFLOW_DBFS_PATH_PREFIX = true →
   _build_dbfs_backend p w
   = (match (MLFlowObjectStore_init p (remote w)).1 with
      | Returns _ => Returns (MLFlowObjectStore p)
      | Raises e => Raises e
      | BlocksForever => BlocksForever
      end, set_remote (MLFlowObjectStore_init p (remote w)).2 w)).
Proof.
  unfold _build_dbfs_backend, dbfs_backend_for. split_and!.
  - intros store w'. destruct (startswith _ _); run; unfold inRemote, zoom; cbn.
    + destruct (MLFlowObjectStore_init p (remote w)) as [[[]|e|] r]; cbn; [|done..].
      by intros [= <- _].
    + destruct (UCObjectStore_validate_path p (remote w)) as [[[]|e|] r]; cbn; [|done..].
      destruct (UCObjectStore_init p r) as [[[]|e|] r']; cbn; [|done..].
      by intros [= <- _].
  - intros -> e r Hv. run. unfold inRemote, zoom. by rewrite Hv.
  - intros ->. run. unfold inRemote, zoom.
    by destruct (MLFlowObjectStore_init p (remote w)) as [[[]|e|] r].
Qed.

Lemma retry_attempts_keeps_self {A} cls (func : Z → M Proc A) spare :
  (∀ i p, self (func i p).2 = self p) →
  ∀ i p, self (retry_attempts cls func spare i p).2 = self p.
Proof.
  intros Hf. induction spare as [|spare IH]; intros i p; cbn.
  - specialize (Hf (if retry_passes_index then i else 0) p).
    destruct (func _ p) as [[a|e|] p1]; [done| |done]. by destruct (isinstance e cls).
  - specialize (Hf (if retry_passes_index then i else 0) p).
    destruct (func _ p) as [[a|e|] p1]; [done| |done].
    destruct (isinstance e cls); [|done]. run.
    set (p2 := {| world := _; self := self p1 |}).
    by rewrite (IH (i + 1) p2).
Qed.

(** After its first statement, [init] changes nothing of [self]. *)
Lemma init_self p :
  self (init p).2 = self (init_backend p).2.
Proof.
  unfold init. unfold mbind at 1. unfold M_bind at 1.
  destruct (init_backend p) as [[[]|e|] p1]; cbn; try done.
  run. case_bool_decide; [|done]. unfold retry.
  by rewrite (retry_attempts_keeps_self ObjectStoreTransientError (λ _, validate_probe) _
                (λ _ p2, proj2 (validate_probe_trace p2))).
Qed.

(** X12.  For a folder that is not on [dbfs], [init] keeps the client that
    is set, builds one from the folder's URI when none is set, and leaves
    [self.path] as it is. *)
Theorem init_builds_store_once p :
  _is_dbfs (self p) = false →
  path (self (init p).2) = path (self p) ∧
  object_store (self (init p).2)
  = match object_store (self p) with
    | Some o => Some o
    | None =>
        match (maybe_create_object_store_from_uri (remote_folder (self p))
                 (remote (world p))).1 with
        | Returns o => o
        | _ => None
        end
    end.
Proof.
  intros Hkind. rewrite init_self. destruct p as [w u]. cbn in *.
  unfold init_backend, build_if_none. run. rewrite Hkind. cbn.
  destruct (object_store u) as [o|] eqn:Ho; cbn; [by rewrite Ho|].
  unfold inRemote, zoom.
  destruct (maybe_create_object_store_from_uri _ _) as [[o|e|] r]; cbn; by rewrite ?Ho.
Qed.

(** X13.  On a rank other than 0, for an MLflow path, an [init] that
    returns has taken the path that rank 0 broadcast and has built its
    client from that path, whatever client was set; its only event is the
    broadcast. *)
Theorem init_follower_adopts_broadcast_path p p0 rest :
  _is_dbfs (self p) = true →
  startswith (path (self p)) MLFLOW_DBFS_PATH_PREFIX = true →
  global_rank (world p) ≠ 0 →
  leader_objects (world p) = p0 :: rest →
  (init p).1 = Returns tt →
  path (self (init p).2) = p0 ∧
  object_store (self (init p).2) = Some (dbfs_backend_for p0) ∧
  trace (world (init p).2) = (trace (world p) ++ [EvBroadcast [path (self p)]])%list.
Proof.
  intros Hdbfs Hpath Hrank Hrecv.
  destruct p as [w u]. cbn in *.
  set (w0 := set_trace (trace w ++ [EvBroadcast [path u]]) w).
  destruct (build_dbfs_backend_kind p0 w0) as [Hkind _].
  destruct (only_remote_build_dbfs_backend p0 w0) as [r Hr].
  unfold init, init_backend, broadcast_object_list. run.
  rewrite Hdbfs. cbn. rewrite Hpath. cbn.
  repeat match goal with
         | |- context [@bool_decide (global_rank w = 0) ?d] =>
             rewrite (@bool_decide_false (global_rank w = 0) d) by done; cbn
         | |- context [@bool_decide (global_rank w ≠ 0) ?d] =>
             rewrite (@bool_decide_true (global_rank w ≠ 0) d) by done; cbn
         end.
  rewrite Hrecv. cbn.
  repeat match goal with
         | |- context [@bool_decide (global_rank w ≠ 0) ?d] =>
             rewrite (@bool_decide_true (global_rank w ≠ 0) d) by done; cbn
         end.
  fold w0.
  destruct (_build_dbfs_backend p0 w0) as [[store|e|] w1] eqn:Hbuild; cbn in *; [|done..].
  subst w1. cbn.
  repeat match goal with
         | |- context [@bool_decide (global_rank w = 0) ?d] =>
             rewrite (@bool_decide_false (global_rank w = 0) d) by done; cbn
         end.
  intros _. by rewrite (Hkind store _ eq_refl).
Qed.

(** X14.  On rank 0, for an MLflow path and no client set, [init] replaces
    [self.path] by the path that the MLflow client resolves, broadcasts the
    resolved path, and then probes the credentials with the client that was
    built from the path as it was given. *)
Theorem init_leader_resolves_path p resolved r1 r2 :
  _is_dbfs (self p) = true →
  startswith (path (self p)) MLFLOW_DBFS_PATH_PREFIX = true →
  global_rank (world p) = 0 →
  object_store (self p) = None →
  MLFlowObjectStore_init (path (self p)) (remote (world p)) = (Returns tt, r1) →
  get_dbfs_path (MLFlowObjectStore (path (self p))) (path (self p)) r1
  = (Returns resolved, r2) →
  path (self (init p).2) = resolved ∧
  object_store (self (init p).2) = Some (MLFlowObjectStore (path (self p))) ∧
  ∃ evs,
    trace (world (init p).2)
    = (trace (world p) ++
       EvBroadcast [resolved] ::
       EvValidate (Some (MLFlowObjectStore (path (self p))))
         ".credentials_validated_successfully" :: evs)%list.
Proof.
  intros Hdbfs Hpath Hrank Hnone Hinit Hresolve.
  assert (∃ p1, init_backend p = (Returns false, p1) ∧
                self p1 = set_path resolved
                            (set_object_store (Some (MLFlowObjectStore (path (self p))))
                               (self p)) ∧
                trace (world p1) = (trace (world p) ++ [EvBroadcast [resolved]])%list ∧
                global_rank (world p1) = 0) as [p1 [Hrun [Hself [Ht Hrank1]]]].
  { destruct p as [w u]. cbn in *.
    unfold init_backend, build_if_none, build_dbfs, _build_dbfs_backend,
      broadcast_object_list. run.
    rewrite Hdbfs. cbn. rewrite Hpath. cbn.
    repeat match goal with
           | |- context [@bool_decide (global_rank w = 0) ?d] =>
               rewrite (@bool_decide_true (global_rank w = 0) d) by done; cbn
           end.
    rewrite Hnone. cbn. unfold inRemote, zoom. cbn.
    rewrite Hinit. cbn. rewrite Hresolve. cbn.
    repeat match goal with
           | |- context [@bool_decide (global_rank w = 0) ?d] =>
               rewrite (@bool_decide_true (global_rank w = 0) d) by done; cbn
           | |- context [@bool_decide (global_rank w ≠ 0) ?d] =>
               rewrite (@bool_decide_false (global_rank w ≠ 0) d) by (by intros []); cbn
           end.
    eexists. by split_and!. }
  rewrite init_self, Hrun. cbn. rewrite Hself. split; [done|]. split; [done|].
  unfold init. unfold mbind at 1. unfold M_bind at 1. rewrite Hrun.
  run. rewrite Hrank1, bool_decide_true by done. unfold retry.
  replace {| world := world p1; self := self p1 |} with p1 by by destruct p1.
  destruct (retry_probe_extends (Z.to_nat (num_attempts (self p1) - 1)) 0 p1) as [evs Hevs].
  exists evs. rewrite Hevs, Ht, Hself. cbn. by rewrite <- app_assoc.
Qed.

End MoreInit.

(** ** The tracked futures along a history of calls *)

Section Order.
Context `{Collaborators}.

Lemma keeps_part_bind {B A C} (g : RemoteUploader → B) (c : M Proc A) (k : A → M Proc C) :
  keeps_part g c → (∀ a, keeps_part g (k a)) → keeps_part g (c ≫= k).
Proof.
  intros Hc Hk p. unfold mbind, M_bind. specialize (Hc p).
  destruct (c p) as [[a|e|] p1]; cbn in *; [|done..].
  by rewrite Hk.
Qed.

Lemma keeps_part_same {B A} (g : RemoteUploader → B) (c : M Proc A) :
  (∀ p, self (c p).2 = self p) → keeps_part g c.
Proof. intros Hc p. by rewrite Hc. Qed.

Lemma keeps_part_inW {B A} (g : RemoteUploader → B) (c : M World A) : keeps_part g (inW c).
Proof. apply keeps_part_same. intros p. unfold inW, zoom. cbn. by destruct (c (world p)). Qed.

Lemma keeps_part_set_self {B} (g : RemoteUploader → B) (f : RemoteUploader → RemoteUploader) :
  (∀ u, g (f u) = g u) → keeps_part g (set_self f).
Proof. intros Hf p. apply Hf. Qed.

Ltac part_leaf :=
  first
    [ by apply keeps_part_same
    | apply keeps_part_inW
    | apply keeps_part_set_self; by intros [] ].

Tactic Notation "part_bind" ident(x) :=
  apply keeps_part_bind; [try part_leaf|intros x; try part_leaf].

Lemma keeps_part_build_if_none build : keeps_part tracked_part (build_if_none build).
Proof.
  unfold build_if_none, get_self. part_bind o.
  destruct o; [part_leaf|]. part_bind store.
Qed.

Lemma keeps_part_init_backend : keeps_part tracked_part init_backend.
Proof.
  unfold init_backend, get_self.
  part_bind is_dbfs. destruct (negb is_dbfs).
  { part_bind folder. part_bind u. apply keeps_part_build_if_none. }
  part_bind p. destruct (negb _).
  { part_bind u. apply keeps_part_build_if_none. }
  part_bind rank. part_bind u.
  { case_bool_decide; [|part_leaf].
    part_bind u; [apply keeps_part_build_if_none|].
    part_bind o. destruct o as [[]|]; try part_leaf.
    part_bind resolved. }
  part_bind p'. part_bind path_list.
  destruct path_list as [|p0 ?]; [part_leaf|].
  part_bind u'. case_bool_decide; [|part_leaf].
  part_bind store.
Qed.

Lemma validate_probe_futures_made p :
  futures_made (world (validate_probe p).2) = futures_made (world p).
Proof.
  destruct p as [w u]. unfold validate_probe. run. unfold inRemote, zoom. cbn.
  by destruct (validate_credentials _ _ _) as [[[]|e|] r].
Qed.

Lemma retry_attempts_futures_made {A} cls (func : Z → M Proc A) spare :
  (∀ i p, futures_made (world (func i p).2) = futures_made (world p)) →
  ∀ i p, futures_made (world (retry_attempts cls func spare i p).2) = futures_made (world p).
Proof.
  intros Hf. induction spare as [|spare IH]; intros i p; cbn.
  - specialize (Hf (if retry_passes_index then i else 0) p).
    destruct (func _ p) as [[a|e|] p1]; [done| |done]. by destruct (isinstance e cls).
  - specialize (Hf (if retry_passes_index then i else 0) p).
    destruct (func _ p) as [[a|e|] p1]; [done| |done].
    destruct (isinstance e cls); [|done]. run.
    set (p2 := {| world := _; self := self p1 |}).
    by rewrite (IH (i + 1) p2).
Qed.

Lemma init_futures_made p :
  futures_made (world (init p).2) = futures_made (world p).
Proof.
  destruct (method_touches_init_backend (λ _, True) ltac:(done) p) as [r [evs [Hw _]]].
  unfold init. unfold mbind at 1. unfold M_bind at 1.
  destruct (init_backend p) as [[[]|e|] p1]; cbn in *; try by rewrite Hw.
  run. case_bool_decide; [|by rewrite Hw]. unfold retry.
  rewrite (retry_attempts_futures_made ObjectStoreTransientError (λ _, validate_probe) _
             (λ _ p2, validate_probe_futures_made p2)).
  cbn. by rewrite Hw.
Qed.

Lemma awaited_futures_made w f : futures_made (awaited w f) = futures_made w.
Proof. unfold awaited. by destruct (fates w !! f) as [[??]|]. Qed.

Lemma wait_loop_futures_made fs : ∀ p,
  futures_made (world (wait_loop fs p).2) = futures_made (world p).
Proof.
  induction fs as [|f rest IH]; intros [w u]; [done|].
  destruct (fates w !! f) as [[t [e|]]|] eqn:Hf.
  - rewrite (wait_loop_step_error f rest w u t e Hf). apply awaited_futures_made.
  - rewrite (wait_loop_step_ok f rest w u t Hf), IH. apply awaited_futures_made.
  - rewrite (wait_loop_step_never f rest w u Hf). apply awaited_futures_made.
Qed.

Lemma join_all_futures_made fs : ∀ w, futures_made (join_all fs w).2 = futures_made w.
Proof.
  induction fs as [|f rest IH]; intros w; cbn; [done|].
  unfold Future_join. run.
  destruct (fates w !! f) as [[t eo]|]; cbn; [|done].
  specialize (IH (set_now (now w `max` t) w)).
  by destruct (join_all rest _) as [[[]|e|] w1].
Qed.

Lemma StronglySorted_filter (P : Future → bool) l :
  StronglySorted lt l → StronglySorted lt (List.filter P l).
Proof.
  induction 1 as [|x l Hl IH Hx]; cbn; [constructor|].
  destruct (P x); [|done]. constructor; [done|].
  apply Forall_forall. intros y Hy%list_elem_of_In%List.filter_In.
  rewrite Forall_forall in Hx. apply Hx, list_elem_of_In. tauto.
Qed.

Lemma Forall_filter_keeps {A} (Q : A → Prop) (P : A → bool) l :
  Forall Q l → Forall Q (List.filter P l).
Proof.
  induction 1 as [|x l Hx _ IH]; cbn; [constructor|].
  destruct (P x); [by constructor|done].
Qed.

Lemma StronglySorted_snoc l (n : nat) :
  StronglySorted lt l → Forall (λ f, (f < n)%nat) l → StronglySorted lt (l ++ [n]).
Proof.
  induction 1 as [|x l Hl IH Hx]; cbn; intros Hn.
  - repeat constructor.
  - inversion_clear Hn as [|?? Hxn Hln]. constructor; [by apply IH|].
    apply Forall_app. split; [done|by constructor].
Qed.

Lemma tracks_in_order_check_workers p : tracks_in_order p → tracks_in_order (check_workers p).2.
Proof.
  intros [Hsorted [Hmade Hpending]]. rewrite check_workers_run. cbn zeta.
  destruct (first_failure _ _); cbn; [done|].
  destruct (self p) as [? ? ? ? ? ? ex fs]. cbn in *.
  split_and!; [by apply StronglySorted_filter|by apply Forall_filter_keeps..].
Qed.

Lemma tracks_in_order_wait p : tracks_in_order p → tracks_in_order (wait p).2.
Proof.
  intros [Hsorted [Hmade Hpending]]. destruct p as [w u]. unfold wait. run.
  destruct (wait_loop_cases (futures u) {| world := w; self := u |}) as [Hself _].
  pose proof (wait_loop_futures_made (futures u) {| world := w; self := u |}) as Hm.
  destruct (wait_loop (futures u) _) as [[[]|e|] [w1 u1]]; cbn in *; subst u1.
  - destruct u. unfold tracks_in_order. cbn. split_and!; constructor.
  - unfold tracks_in_order. cbn. by rewrite Hm.
  - unfold tracks_in_order. cbn. by rewrite Hm.
Qed.

Lemma tracks_in_order_executor_shutdown p :
  tracks_in_order p → tracks_in_order (executor_shutdown p).2.
Proof.
  intros Hp. destruct p as [w u]. unfold executor_shutdown. run.
  pose proof (join_all_futures_made (_pending_work_items (executor u))
                (set_trace (trace w ++ [EvShutdown]) w)) as Hm.
  destruct u as [? ? ? ? ? ? ex fs]. unfold tracks_in_order in *. cbn in *.
  destruct (join_all _ _) as [[[]|e|] w1]; cbn in *; by rewrite Hm.
Qed.

Lemma tracks_in_order_wait_and_close p :
  tracks_in_order p → tracks_in_order (wait_and_close p).2.
Proof.
  intros Hp. unfold wait_and_close, mbind, M_bind.
  pose proof (tracks_in_order_wait p Hp) as Hw.
  destruct (wait p) as [[[]|e|] p1]; cbn in *; [|done..].
  by apply tracks_in_order_executor_shutdown.
Qed.

Lemma tracks_in_order_upload_file_async name file overwrite p :
  tracks_in_order p → tracks_in_order (upload_file_async name file overwrite p).2.
Proof.
  intros [Hsorted [Hmade Hpending]]. destruct p as [w u]. cbn in *.
  unfold upload_file_async, uuid4, shutil_copy2, executor_submit. run.
  destruct (files w !! file) as [content|]; cbn; [|done].
  destruct (_shutdown_thread (executor u)); cbn; [done|].
  destruct u as [? ? ? ? ? ? ex fs]. cbn in *. split_and!.
  - by apply StronglySorted_snoc.
  - apply Forall_app. split; [|by repeat constructor].
    eapply Forall_impl; [exact Hmade|]. intros f Hf. cbn in *. lia.
  - apply Forall_app. split.
    + eapply Forall_impl; [exact Hpending|]. intros f Hf. apply elem_of_app. by left.
    + constructor; [|constructor]. apply elem_of_app. right. by left.
Qed.

Lemma tracks_in_order_init p : tracks_in_order p → tracks_in_order (init p).2.
Proof.
  intros [Hsorted [Hmade Hpending]].
  pose proof (keeps_part_init_backend p) as Hpart.
  pose proof (init_self p) as Hself. pose proof (init_futures_made p) as Hm.
  unfold tracked_part in Hpart. injection Hpart as Hfs Hex.
  unfold tracks_in_order. by rewrite Hself, Hm, Hfs, Hex.
Qed.

Lemma tracks_in_order_call_method c p :
  tracks_in_order p → tracks_in_order (call_method c p).2.
Proof.
  intros Hp. destruct c; cbn.
  - by apply tracks_in_order_init.
  - unfold mbind, M_bind.
    pose proof (tracks_in_order_upload_file_async remote_file_name file_path overwrite p Hp).
    by destruct (upload_file_async _ _ _ p) as [[f|e|] p1].
  - by apply tracks_in_order_check_workers.
  - by apply tracks_in_order_wait.
  - by apply tracks_in_order_wait_and_close.
Qed.

(** X15.  From construction on, whatever methods are called and however
    they end, [self.futures] holds futures that this pool created and was
    given, each one once, in the order of their submission. *)
Theorem futures_tracked_in_submission_order remote_folder num_concurrent_uploads
    num_attempts w u w' calls w0 :
  __init__ remote_folder num_concurrent_uploads num_attempts w = (Returns u, w') →
  tracks_in_order (call_methods calls {| world := w0; self := u |}).
Proof.
  intros Hnew.
  assert (futures u = []) as Hempty.
  { revert Hnew. unfold __init__. destruct (_ || _); [done|].
    unfold tempfile_TemporaryDirectory, ProcessPoolExecutor. run.
    destruct (parse_uri remote_folder) as [[backend bucket] path].
    case_bool_decide; [done|]. by intros [= <- _]. }
  assert (tracks_in_order {| world := w0; self := u |}) as Hstart.
  { unfold tracks_in_order. cbn. rewrite Hempty. split_and!; constructor. }
  clear Hnew Hempty. revert Hstart. generalize {| world := w0; self := u |}.
  induction calls as [|c rest IH]; intros p Hp; cbn; [done|].
  pose proof (tracks_in_order_call_method c p Hp) as Hc.
  destruct (call_method c p) as [[[]|e|] p1]; cbn in *; [by apply IH|by apply IH|done].
Qed.

End Order.

(** * The properties on concrete runs

    Each lemma below runs the program with the collaborators of [Example]
    and applies one of the theorems above to that run. *)

Section Witnesses.
#[local] Existing Instance Example.collaborators.
Import Example.

Lemma wait_in_submission_order_witness :
  (Forall (resolves_successfully w0) [0; 2]%nat ∧
   ∃ w',
     wait (proc w0 (uploader [0; 2]%nat))
     = (Returns tt, {| world := w'; self := set_futures [] (uploader [0; 2]%nat) |}) ∧
     trace w' = [EvException 0%nat; EvException 2%nat] ∧
     Forall (λ f, resolved w' f = true) [0; 2]%nat) ∧
  (Forall (resolves_successfully w0) [0%nat] ∧
   resolves_with_error w0 1%nat broken ∧
   ∃ w',
     wait (proc w0 (uploader [0; 1; 2]%nat))
     = (Raises broken, {| world := w'; self := uploader [0; 1; 2]%nat |}) ∧
     trace w' = [EvException 0%nat; EvException 1%nat] ∧
     Forall (λ g, resolved w' g = true) [0; 1]%nat).
Proof.
  assert (resolves_successfully w0 0%nat) as H0 by (exists 1; reflexivity).
  assert (resolves_successfully w0 2%nat) as H2 by (exists 50; reflexivity).
  assert (resolves_with_error w0 1%nat broken) as H1 by (exists 2; reflexivity).
  split.
  - split; [repeat constructor; assumption|].
    apply (proj1 (wait_in_submission_order (proc w0 (uploader [0; 2]%nat)))).
    repeat constructor; assumption.
  - split; [repeat constructor; assumption|]. split; [assumption|].
    apply (proj2 (wait_in_submission_order (proc w0 (uploader [0; 1; 2]%nat)))
             [0%nat] 1%nat [2%nat] broken).
    + reflexivity.
    + repeat constructor; assumption.
    + assumption.
Defined.

Lemma check_workers_keeps_unsucceeded_witness :
  check_workers (tracking [0; 1; 2]%nat)
  = (Raises broken, checked) ∧
  (∀ f, f ∈ futures (self checked) →
        f ∈ [0; 1; 2]%nat) ∧
  (∀ f, f ∈ [0; 1; 2]%nat →
        f ∉ futures (self checked) →
        succeeded w0 f = true) ∧
  (∀ e, (Raises broken : outcome unit) = Raises e →
        futures (self checked) = [0; 1; 2]%nat ∧
        (∃ f, f ∈ futures (self checked) ∧
              failed_with w0 f = Some e) ∧
        (∃ p'', check_workers checked = (Raises e, p'') ∧
                futures (self p'') = [0; 1; 2]%nat) ∧
        (∀ t, now (world checked) ≤ t →
              ∃ e' p'',
                check_workers
                  {| world := set_now t (world checked);
                     self := self checked |}
                = (Raises e', p'') ∧
                futures (self p'') = [0; 1; 2]%nat)).
Proof.
  assert (check_workers (tracking [0; 1; 2]%nat)
          = (Raises broken, checked)) as Hrun
    by (vm_compute; reflexivity).
  split; [exact Hrun|].
  exact (check_workers_keeps_unsucceeded (tracking [0; 1; 2]%nat) (Raises broken) _ Hrun).
Defined.

Lemma check_workers_raise_removes_nothing_witness :
  (1%nat ∈ [0; 1; 2]%nat ∧ is_Some (failed_with w0 1%nat) ∧
   ∃ e p', check_workers (tracking [0; 1; 2]%nat) = (Raises e, p')) ∧
  (check_workers (tracking [0; 1; 2]%nat)
   = (Raises broken, checked) ∧
   self checked = uploader [0; 1; 2]%nat ∧
   ∀ f, f ∈ [0; 1; 2]%nat → succeeded w0 f = true →
        f ∈ futures (self checked)).
Proof.
  assert (1%nat ∈ [0; 1; 2]%nat) as Hin by (right; left).
  assert (is_Some (failed_with w0 1%nat)) as Hfail by (exists broken; reflexivity).
  assert (check_workers (tracking [0; 1; 2]%nat)
          = (Raises broken, checked)) as Hrun
    by (vm_compute; reflexivity).
  split.
  - split; [exact Hin|]. split; [exact Hfail|].
    exact (proj1 (check_workers_raise_removes_nothing (tracking [0; 1; 2]%nat))
             1%nat Hin Hfail).
  - split; [exact Hrun|].
    exact (proj2 (check_workers_raise_removes_nothing (tracking [0; 1; 2]%nat))
             broken _ Hrun).
Defined.

(** C2 as stated fails: handle 0 has succeeded, handle 1 has failed; the
    call raises and handle 0 is still tracked afterwards. *)
Lemma check_workers_keeps_succeeded_handle_on_raise :
  succeeded w0 0%nat = true ∧
  (check_workers (tracking [0; 1; 2]%nat)).1 = Raises broken ∧
  0%nat ∈ futures (self checked).
Proof.
  split_and!; [reflexivity..|]. vm_compute. left.
Qed.


Lemma upload_after_close_witness :
  wait_and_close (tracking [0; 2]%nat) = (Returns tt, closed) ∧
  futures (self closed) = [] ∧
  ∃ w',
    (upload_file_async "a" "/data/ckpt.pt" true closed).2
      = {| world := w'; self := self closed |} ∧
    trace w' = (trace (world closed) ++ [EvCopy "/data/ckpt.pt" "/tmp/tmpabc/uuid-0"])%list ∧
    (upload_file_async "a" "/data/ckpt.pt" true closed).1
      = Raises (Exn RuntimeError "cannot schedule new futures after shutdown") ∧
    files w' = <["/tmp/tmpabc/uuid-0" := [Byte.x01; Byte.x02]]> (files (world closed)).
Proof.
  assert (wait_and_close (tracking [0; 2]%nat) = (Returns tt, closed)) as Hclosed
    by (vm_compute; reflexivity).
  split; [exact Hclosed|].
  exact (upload_after_close_stages_then_raises (tracking [0; 2]%nat) closed
           "a" "/data/ckpt.pt" true Hclosed).
Defined.

(** C7 as stated fails: after [wait_and_close()] has returned, the call
    raises the closed-pool error, and the staging area holds a file that was
    not there before the call. *)
Lemma upload_after_close_leaves_staged_copy :
  wait_and_close (tracking [0; 2]%nat) = (Returns tt, closed) ∧
  (upload_file_async "a" "/data/ckpt.pt" true closed).1
    = Raises (Exn RuntimeError "cannot schedule new futures after shutdown") ∧
  files (world closed) !! "/tmp/tmpabc/uuid-0" = None ∧
  files (world (upload_file_async "a" "/data/ckpt.pt" true closed).2)
    !! "/tmp/tmpabc/uuid-0" = Some [Byte.x01; Byte.x02].
Proof. split_and!; vm_compute; reflexivity. Qed.


Lemma stagger_before_upload_witness :
  (worker_object_store "s3://bucket/run" false "" staggering
   = (Returns (Some s3_store), staggering) ∧
   stagger_seconds staggering = Some 5 ∧
   0 ≤ local_rank staggering * 5 ≤ SLEEP_SECONDS_MAX ∧
   _upload_file_to_object_store "s3://bucket/run" false "" "obj" "/data/ckpt.pt" true 3
     staggering
   = (upload_file 3 (Some s3_store) "obj" "/data/ckpt.pt" true;; mret 0)
       (slept (local_rank staggering * 5) staggering)) ∧
  (worker_object_store "s3://bucket/run" false "" overlong
   = (Returns (Some s3_store), overlong) ∧
   stagger_seconds overlong = Some 4000000000 ∧
   ¬ 0 ≤ local_rank overlong * 4000000000 ≤ SLEEP_SECONDS_MAX ∧
   ∃ e,
     _upload_file_to_object_store "s3://bucket/run" false "" "obj" "/data/ckpt.pt" true 3
       overlong = (Raises e, overlong) ∧
     exn_cls e = if bool_decide (- SLEEP_SECONDS_MAX ≤ local_rank overlong * 4000000000 < 0)
                 then ValueError else OtherError "OverflowError") ∧
  (worker_object_store "s3://bucket/run" false "" staggering_rank0
   = (Returns (Some s3_store), staggering_rank0) ∧
   stagger_seconds staggering_rank0 = Some 5 ∧
   local_rank staggering_rank0 = 0 ∧
   _upload_file_to_object_store "s3://bucket/run" false "" "obj" "/data/ckpt.pt" true 3
     staggering_rank0
   = (upload_file 3 (Some s3_store) "obj" "/data/ckpt.pt" true;; mret 0)
       (slept 0 staggering_rank0) ∧
   now (slept 0 staggering_rank0) = now staggering_rank0) ∧
  ((_upload_file_to_object_store "s3://bucket/run" false "" "obj" "/data/ckpt.pt" true 3
      staggering).1 = Returns 0 ∧
   ∃ rest,
     trace (_upload_file_to_object_store "s3://bucket/run" false "" "obj" "/data/ckpt.pt"
              true 3 staggering).2
     = (trace staggering ++ EvSleep 15 :: rest)%list ∧
     Forall (λ ev, is_sleep ev = false) rest) ∧
  ∃ evs,
    trace (_upload_file_to_object_store "s3://bucket/run" false "" "obj" "/data/ckpt.pt"
             true 3 staggering_rank0).2
    = (trace staggering_rank0 ++ evs)%list ∧
    ∀ d, EvSleep d ∈ evs → d = 0.
Proof.
  assert (worker_object_store "s3://bucket/run" false "" staggering
          = (Returns (Some s3_store), staggering)) as Hbuild by (vm_compute; reflexivity).
  assert (stagger_seconds staggering = Some 5) as Hs by (vm_compute; reflexivity).
  assert (0 ≤ local_rank staggering * 5 ≤ SLEEP_SECONDS_MAX) as Hd
    by (split; vm_compute; intros H; discriminate H).
  assert (worker_object_store "s3://bucket/run" false "" overlong
          = (Returns (Some s3_store), overlong)) as Hbuild' by (vm_compute; reflexivity).
  assert (stagger_seconds overlong = Some 4000000000) as Hs' by (vm_compute; reflexivity).
  assert (¬ 0 ≤ local_rank overlong * 4000000000 ≤ SLEEP_SECONDS_MAX) as Hd'
    by (intros [_ H]; vm_compute in H; apply H; reflexivity).
  assert (worker_object_store "s3://bucket/run" false "" staggering_rank0
          = (Returns (Some s3_store), staggering_rank0)) as Hbuild0
    by (vm_compute; reflexivity).
  assert (stagger_seconds staggering_rank0 = Some 5) as Hs0 by (vm_compute; reflexivity).
  assert (local_rank staggering_rank0 = 0) as Hrank0 by reflexivity.
  assert ((_upload_file_to_object_store "s3://bucket/run" false "" "obj" "/data/ckpt.pt"
             true 3 staggering).1 = Returns 0) as Hret by (vm_compute; reflexivity).
  split; [split; [exact Hbuild|split; [exact Hs|split; [exact Hd|]]]|].
  { exact (proj1 (stagger_before_upload "s3://bucket/run" false "" "obj" "/data/ckpt.pt"
                    true 3 staggering) (Some s3_store) staggering 5 Hbuild Hs Hd). }
  split; [split; [exact Hbuild'|split; [exact Hs'|split; [exact Hd'|]]]|].
  { exact (proj1 (proj2 (stagger_before_upload "s3://bucket/run" false "" "obj"
                           "/data/ckpt.pt" true 3 overlong))
             (Some s3_store) overlong 4000000000 Hbuild' Hs' Hd'). }
  split; [split; [exact Hbuild0|split; [exact Hs0|split; [exact Hrank0|]]]|].
  { exact (proj1 (proj2 (proj2 (stagger_before_upload "s3://bucket/run" false "" "obj"
                                  "/data/ckpt.pt" true 3 staggering_rank0)))
             (Some s3_store) staggering_rank0 5 Hbuild0 Hs0 Hrank0). }
  split; [split; [exact Hret|]|].
  - destruct (proj2 (proj2 (proj2 (stagger_before_upload "s3://bucket/run" false ""
                                     "obj" "/data/ckpt.pt" true 3 staggering))))
      as [evs [Ht [[[_ Hno]|[s [rest [Hs5 [_ [Hevs Hrest]]]]]] _]]].
    + destruct (Hno 0 Hret).
    + exists rest. split; [|exact Hrest].
      rewrite Hs in Hs5. injection Hs5 as Hs5. rewrite <- Hs5 in Hevs.
      rewrite Ht, Hevs. reflexivity.
  - destruct (proj2 (proj2 (proj2 (stagger_before_upload "s3://bucket/run" false ""
                                     "obj" "/data/ckpt.pt" true 3 staggering_rank0))))
      as [evs [Ht [_ Hzero]]].
    exists evs. split; [exact Ht|]. exact (Hzero Hrank0).
Defined.

(** Runs one attempt of a retried statement on a concrete state and records
    that it raised. *)
Ltac attempt_raises :=
  cbn [raises_each_time];
  lazymatch goal with
  | |- ∃ e0 s0, ?run = (Raises e0, s0) ∧ _ =>
      let v := eval vm_compute in run in
      lazymatch v with
      | (Raises ?e, ?s) => exists e, s; split; [reflexivity|split; [reflexivity|]]
      end
  end.



End Witnesses.

(** * The further properties on concrete runs *)

Section MoreWitnesses.
#[local] Existing Instance Example.collaborators.
Import Example.

Lemma upload_file_async_submits_witness :
  _shutdown_thread (executor (self (tracking [0; 2]%nat))) = false ∧
  files (world (tracking [0; 2]%nat)) !! "/data/ckpt.pt" = Some [Byte.x01; Byte.x02] ∧
  ∃ p',
    upload_file_async "a" "/data/ckpt.pt" true (tracking [0; 2]%nat) = (Returns 4%nat, p') ∧
    futures (self p') = [0; 2; 4]%nat ∧
    _pending_work_items (executor (self p')) = [0; 2; 4]%nat ∧
    futures_made (world p') = 5%nat ∧
    files (world p')
    = <["/tmp/tmpabc/uuid-0" := [Byte.x01; Byte.x02]]> (files (world (tracking [0; 2]%nat))) ∧
    files (world p') !! "/data/ckpt.pt" = Some [Byte.x01; Byte.x02] ∧
    trace (world p')
    = [EvCopy "/data/ckpt.pt" "/tmp/tmpabc/uuid-0";
       EvSubmit 4%nat (next_call (tracking [0; 2]%nat) "a" true)] ∧
    now (world p') = 10.
Proof.
  assert (_shutdown_thread (executor (self (tracking [0; 2]%nat))) = false) as Hopen
    by reflexivity.
  assert (files (world (tracking [0; 2]%nat)) !! "/data/ckpt.pt" = Some [Byte.x01; Byte.x02])
    as Hfile by (vm_compute; reflexivity).
  split; [exact Hopen|]. split; [exact Hfile|].
  exact (upload_file_async_submits (tracking [0; 2]%nat) "a" "/data/ckpt.pt" true _
           Hopen Hfile).
Defined.

Lemma upload_file_async_missing_source_witness :
  files (world (tracking [0; 2]%nat)) !! "/data/none.pt" = None ∧
  ∃ w',
    upload_file_async "a" "/data/none.pt" true (tracking [0; 2]%nat)
    = (Raises (Exn FileNotFoundError ("No such file or directory: " ++ "/data/none.pt")),
       {| world := w'; self := self (tracking [0; 2]%nat) |}) ∧
    files w' = files (world (tracking [0; 2]%nat)) ∧
    futures_made w' = futures_made (world (tracking [0; 2]%nat)) ∧
    uuids_drawn w' = S (uuids_drawn (world (tracking [0; 2]%nat))) ∧
    trace w' = (trace (world (tracking [0; 2]%nat)) ++
                [EvCopy "/data/none.pt" (next_staged_path (tracking [0; 2]%nat))])%list.
Proof.
  assert (files (world (tracking [0; 2]%nat)) !! "/data/none.pt" = None) as Hfile
    by (vm_compute; reflexivity).
  split; [exact Hfile|].
  exact (upload_file_async_missing_source (tracking [0; 2]%nat) "a" "/data/none.pt" true
           Hfile).
Defined.

Lemma wait_and_close_outcomes_witness :
  (wait_and_close (tracking [0; 2]%nat) = (Returns tt, closed) ∧
   _shutdown_thread (executor (self closed)) = true ∧
   futures (self closed) = [] ∧
   Forall (resolves_successfully w0) [0; 2]%nat ∧
   Forall (λ f, is_Some (fates w0 !! f)) [0; 2]%nat) ∧
  (wait_and_close (tracking [0; 1; 2]%nat)
   = (Raises broken, (wait_and_close (tracking [0; 1; 2]%nat)).2) ∧
   self (wait_and_close (tracking [0; 1; 2]%nat)).2 = uploader [0; 1; 2]%nat ∧
   (∃ f, f ∈ [0; 1; 2]%nat ∧ resolves_with_error w0 f broken) ∧
   ∃ evs, trace (world (wait_and_close (tracking [0; 1; 2]%nat)).2) = ([] ++ evs)%list ∧
          EvShutdown ∉ evs).
Proof.
  split.
  - assert (wait_and_close (tracking [0; 2]%nat) = (Returns tt, closed)) as Hrun
      by (vm_compute; reflexivity).
    split; [exact Hrun|].
    exact (wait_and_close_outcomes (tracking [0; 2]%nat) (Returns tt) closed Hrun).
  - assert (wait_and_close (tracking [0; 1; 2]%nat)
            = (Raises broken, (wait_and_close (tracking [0; 1; 2]%nat)).2)) as Hrun
      by (vm_compute; reflexivity).
    split; [exact Hrun|].
    exact (wait_and_close_outcomes (tracking [0; 1; 2]%nat) (Raises broken) _ Hrun).
Defined.

Lemma wait_then_wait_or_check_witness :
  wait (tracking [0; 2]%nat) = (Returns tt, waited) ∧
  futures (self waited) = [] ∧
  wait waited = (Returns tt, waited) ∧
  check_workers waited = (Returns tt, waited).
Proof.
  assert (wait (tracking [0; 2]%nat) = (Returns tt, waited)) as Hrun
    by (vm_compute; reflexivity).
  split; [exact Hrun|].
  exact (wait_then_wait_or_check (tracking [0; 2]%nat) waited Hrun).
Defined.

Lemma check_workers_twice_witness :
  check_workers (tracking [0; 2]%nat) = (Returns tt, polled) ∧
  ∃ p'',
    check_workers polled = (Returns tt, p'') ∧
    self p'' = self polled ∧
    Forall (λ f, succeeded w0 f = false) (futures (self polled)).
Proof.
  assert (check_workers (tracking [0; 2]%nat) = (Returns tt, polled)) as Hrun
    by (vm_compute; reflexivity).
  split; [exact Hrun|].
  exact (check_workers_twice (tracking [0; 2]%nat) polled Hrun).
Defined.

Lemma probe_at_most_once_witness :
  retry_passes_index = true ∧
  ∃ evs,
    trace (_upload_file_to_object_store "s3://bucket/run" false "" "obj" "/data/ckpt.pt"
             false 3 (with_remote flaky_twice w0)).2
    = (trace (with_remote flaky_twice w0) ++ evs)%list ∧
    (probe_count evs ≤ 1)%nat.
Proof.
  assert (retry_passes_index = true) as Hpass by reflexivity.
  split; [exact Hpass|].
  exact (probe_at_most_once "s3://bucket/run" false "" "obj" "/data/ckpt.pt" false 3
           (with_remote flaky_twice w0) Hpass).
Defined.

Lemma bad_stagger_fails_before_upload_witness :
  stagger_seconds misconfigured = None ∧
  (∀ z, (_upload_file_to_object_store "s3://bucket/run" false "" "obj" "/data/ckpt.pt"
           false 3 misconfigured).1 ≠ Returns z) ∧
  trace (_upload_file_to_object_store "s3://bucket/run" false "" "obj" "/data/ckpt.pt"
           false 3 misconfigured).2 = trace misconfigured ∧
  files (_upload_file_to_object_store "s3://bucket/run" false "" "obj" "/data/ckpt.pt"
           false 3 misconfigured).2 = files misconfigured ∧
  now (_upload_file_to_object_store "s3://bucket/run" false "" "obj" "/data/ckpt.pt"
         false 3 misconfigured).2 = now misconfigured.
Proof.
  assert (stagger_seconds misconfigured = None) as Hbad by (vm_compute; reflexivity).
  split; [exact Hbad|].
  exact (bad_stagger_fails_before_upload "s3://bucket/run" false "" "obj" "/data/ckpt.pt"
           false 3 misconfigured (or_introl Hbad)).
Defined.

Lemma init_builds_store_once_witness :
  _is_dbfs (self (tracking [])) = false ∧
  path (self (init (tracking [])).2) = path (self (tracking [])) ∧
  object_store (self (init (tracking [])).2)
  = Some (ProviderObjectStore "s3://bucket/run").
Proof.
  assert (_is_dbfs (self (tracking [])) = false) as Hkind by reflexivity.
  split; [exact Hkind|].
  exact (init_builds_store_once (tracking []) Hkind).
Defined.

Lemma init_follower_adopts_broadcast_path_witness :
  _is_dbfs (self mlflow_follower) = true ∧
  startswith (path (self mlflow_follower)) MLFLOW_DBFS_PATH_PREFIX = true ∧
  global_rank (world mlflow_follower) ≠ 0 ∧
  leader_objects (world mlflow_follower) = "databricks/mlflow-tracking/1/2/" :: [] ∧
  (init mlflow_follower).1 = Returns tt ∧
  path (self (init mlflow_follower).2) = "databricks/mlflow-tracking/1/2/" ∧
  object_store (self (init mlflow_follower).2)
  = Some (dbfs_backend_for "databricks/mlflow-tracking/1/2/") ∧
  trace (world (init mlflow_follower).2)
  = (trace (world mlflow_follower) ++ [EvBroadcast [path (self mlflow_follower)]])%list.
Proof.
  assert (_is_dbfs (self mlflow_follower) = true) as Hdbfs by reflexivity.
  assert (startswith (path (self mlflow_follower)) MLFLOW_DBFS_PATH_PREFIX = true) as Hpath
    by reflexivity.
  assert (global_rank (world mlflow_follower) ≠ 0) as Hrank by (cbn; lia).
  assert (leader_objects (world mlflow_follower) = "databricks/mlflow-tracking/1/2/" :: [])
    as Hrecv by reflexivity.
  assert ((init mlflow_follower).1 = Returns tt) as Hret by (vm_compute; reflexivity).
  split; [exact Hdbfs|]. split; [exact Hpath|]. split; [exact Hrank|].
  split; [exact Hrecv|]. split; [exact Hret|].
  exact (init_follower_adopts_broadcast_path mlflow_follower _ _ Hdbfs Hpath Hrank Hrecv Hret).
Defined.

Lemma init_leader_resolves_path_witness :
  _is_dbfs (self mlflow_leader) = true ∧
  startswith (path (self mlflow_leader)) MLFLOW_DBFS_PATH_PREFIX = true ∧
  global_rank (world mlflow_leader) = 0 ∧
  object_store (self mlflow_leader) = None ∧
  path (self (init mlflow_leader).2) = "databricks/mlflow-tracking/{x}/{y}" ∧
  object_store (self (init mlflow_leader).2)
  = Some (MLFlowObjectStore "databricks/mlflow-tracking/{x}/{y}") ∧
  ∃ evs,
    trace (world (init mlflow_leader).2)
    = (trace (world mlflow_leader) ++
       EvBroadcast ["databricks/mlflow-tracking/{x}/{y}"] ::
       EvValidate (Some (MLFlowObjectStore "databricks/mlflow-tracking/{x}/{y}"))
         ".credentials_validated_successfully" :: evs)%list.
Proof.
  assert (_is_dbfs (self mlflow_leader) = true) as Hdbfs by reflexivity.
  assert (startswith (path (self mlflow_leader)) MLFLOW_DBFS_PATH_PREFIX = true) as Hpath
    by reflexivity.
  assert (global_rank (world mlflow_leader) = 0) as Hrank by reflexivity.
  assert (object_store (self mlflow_leader) = None) as Hnone by reflexivity.
  split; [exact Hdbfs|]. split; [exact Hpath|]. split; [exact Hrank|]. split; [exact Hnone|].
  exact (init_leader_resolves_path mlflow_leader "databricks/mlflow-tracking/{x}/{y}"
           empty_remote empty_remote Hdbfs Hpath Hrank Hnone eq_refl eq_refl).
Defined.
Lemma futures_tracked_in_submission_order_witness :
  __init__ "s3://bucket/run" 2 3 w0 = (Returns (uploader []), w0) ∧
  tracks_in_order
    (call_methods
       [Call_upload_file_async "a" "/data/ckpt.pt" true; Call_check_workers;
        Call_upload_file_async "b" "/data/ckpt.pt" false; Call_wait_and_close]
       {| world := w0; self := uploader [] |}).
Proof.
  assert (__init__ "s3://bucket/run" 2 3 w0 = (Returns (uploader []), w0)) as Hnew
    by (vm_compute; reflexivity).
  split; [exact Hnew|].
  exact (futures_tracked_in_submission_order "s3://bucket/run" 2 3 w0 (uploader []) w0 _ w0
           Hnew).
Defined.
End MoreWitnesses.

Section FlakyWitnesses.
#[local] Existing Instance Flaky.collaborators.

Lemma transient_probe_failure_skips_existence_check_witness :
  retry_passes_index = true ∧
  2 ≤ 3 ∧
  (get_object_size Example.s3_store "obj" (remote Flaky.w1)).1 = Raises Example.transient ∧
  isinstance Example.transient ObjectStoreTransientError = true ∧
  ∃ rest,
    trace (upload_file 3 (Some Example.s3_store) "obj" "/tmp/tmpabc/uuid-0" false Flaky.w1).2
    = (trace Flaky.w1 ++
       EvGetObjectSize "obj" :: EvBackoff 0 ::
       EvUploadObject "obj" "/tmp/tmpabc/uuid-0" :: rest)%list.
Proof.
  assert (retry_passes_index = true) as Hpass by reflexivity.
  assert (2 ≤ 3) as Hn by lia.
  assert ((get_object_size Example.s3_store "obj" (remote Flaky.w1)).1
          = Raises Example.transient) as Hprobe by reflexivity.
  assert (isinstance Example.transient ObjectStoreTransientError = true) as Hcls
    by reflexivity.
  split; [exact Hpass|]. split; [exact Hn|]. split; [exact Hprobe|]. split; [exact Hcls|].
  exact (transient_probe_failure_skips_existence_check 3 Example.s3_store "obj"
           "/tmp/tmpabc/uuid-0" Flaky.w1 Example.transient Hpass Hn Hprobe Hcls).
Defined.

(** In that world the object exists (a probe that answers finds 7 bytes),
    the task was told not to overwrite, and yet it returns: the second
    attempt has uploaded and removed the staged file. *)
Lemma transient_probe_failure_overwrites :
  (get_object_size Example.s3_store "obj" []).1 = Returns 7 ∧
  (_upload_file_to_object_store "s3://bucket/run" false "" "obj" "/tmp/tmpabc/uuid-0"
     false 3 Flaky.w1).1 = Returns 0 ∧
  trace (_upload_file_to_object_store "s3://bucket/run" false "" "obj" "/tmp/tmpabc/uuid-0"
           false 3 Flaky.w1).2
  = [EvSleep 0; EvGetObjectSize "obj"; EvBackoff 0;
     EvUploadObject "obj" "/tmp/tmpabc/uuid-0"; EvRemove "/tmp/tmpabc/uuid-0"].
Proof. split_and!; vm_compute; reflexivity. Qed.
End FlakyWitnesses.
